(** * Realtime_Copilot: the streaming orchestration of [main.py]

    A shallow embedding of the class [RealtimeTranscriber] of [src/main.py]
    (with the values it imports from [src/configure.py]) and the properties
    of its receiver, sender, conversation processor and supervisor loop.

    Python objects are modelled as follows.
    - [self] is the record [session]; a method is a computation in the
      monad [M], which threads the session and lets an exception escape
      together with the session as the mutations made so far left it.
    - What the program does to the outside world (text written by [print],
      requests to the completion service, frames sent on the socket, reads
      of the audio stream, connections opened) is appended to the field
      [io] of the session, oldest call first.
    - What the outside world answers (the inbound frame and what
      [json.loads] makes of it, the increments of a completion stream, the
      audio frame, the failure of a call) is an argument of the cycle that
      consumes it.
    - Time is not modelled: the calls of [asyncio.sleep] and [time.sleep]
      are left out, and the order in which keys are pressed and the two
      tasks take their turns is given as a list. *)

From Stdlib Require Import List String Ascii ZArith Bool Lia.
From Stdlib.Strings Require Import Byte.
Import ListNotations.
Set Warnings "-register-all".
Local Open Scope string_scope.
Local Open Scope Z_scope.

(** ** Characters that string literals cannot hold *)

Definition LF : string := String (ascii_of_nat 10) EmptyString.
Definition DQUOTE : string := String (ascii_of_nat 34) EmptyString.

(** [sub in s] on two Python strings. *)
Fixpoint str_contains (sub s : string) : bool :=
  String.prefix sub s
  || match s with
     | EmptyString => false
     | String _ s' => str_contains sub s'
     end.

(** ** configure.py *)

Module configure.
Record t := mk {
  auth_key : string;
  OPENAI_API_KEY : string;
  ai_model : string;
  user_name : string;
  interviewer_name : string;
  system_prompt : string
}.

(** The values of the file as it is in the repository. *)
Definition shipped : t := mk "" "" "" "" "" "".
End configure.

(** ** Python values and exceptions *)

(** What [json.loads] can return. A dict keeps its items in insertion
    order; the number of a float is irrelevant to the program and kept as
    its literal. *)
Inductive pyval :=
| PyNone
| PyBool (b : bool)
| PyInt (n : Z)
| PyFloat (literal : string)
| PyStr (s : string)
| PyList (items : list pyval)
| PyDict (items : list (string * pyval)).

(** The exception classes the handlers of [send_receive] tell apart, and
    those the modelled code raises itself. [ConnectionClosedOK] and
    [InvalidStatusCode] are the other exceptions of [websockets];
    [CompletionError] stands for whatever the OpenAI client raises;
    [KeyboardInterrupt] is a [BaseException] that is not an [Exception]. *)
Inductive exn_class :=
| ConnectionClosedError
| ConnectionClosedOK
| InvalidStatusCode
| OSError
| CancelledError
| JSONDecodeError
| KeyError
| TypeError
| CompletionError
| KeyboardInterrupt.

Record exn := mkExn { exn_cls : exn_class; exn_str : string }.

(** [isinstance(e, Exception)]; [asyncio.CancelledError] derives from
    [BaseException] only. *)
Definition is_Exception (c : exn_class) : bool :=
  match c with
  | CancelledError | KeyboardInterrupt => false
  | _ => true
  end.

Definition exn_class_eqb (a b : exn_class) : bool :=
  match a, b with
  | ConnectionClosedError, ConnectionClosedError
  | ConnectionClosedOK, ConnectionClosedOK
  | InvalidStatusCode, InvalidStatusCode
  | OSError, OSError
  | CancelledError, CancelledError
  | JSONDecodeError, JSONDecodeError
  | KeyError, KeyError
  | TypeError, TypeError
  | CompletionError, CompletionError
  | KeyboardInterrupt, KeyboardInterrupt => true
  | _, _ => false
  end.

(** ** The session *)

Record message := mkMessage { role : string; content : string }.

(** Calls that leave the process. *)
Inductive io_call :=
| Stdout (text : string)
| ChatCompletionsCreate (model : string) (context : list message)
| WsConnect (url : string) (authorization : string)
            (ping_interval ping_timeout : Z)
| WsSend (payload : string)
| StreamRead (num_frames : Z).

Record session := mkSession {
  model : string;
  user_message : string;
  user_name : string;
  interviewer_name : string;
  assistant_message : string;
  messages : list message;
  transcribing : bool;
  stop_transcription : bool;
  io : list io_call
}.

Definition set_user_message (v : string) (st : session) : session :=
  mkSession (model st) v (user_name st) (interviewer_name st)
            (assistant_message st) (messages st) (transcribing st)
            (stop_transcription st) (io st).

Definition set_assistant_message (v : string) (st : session) : session :=
  mkSession (model st) (user_message st) (user_name st) (interviewer_name st)
            v (messages st) (transcribing st) (stop_transcription st) (io st).

Definition set_messages (v : list message) (st : session) : session :=
  mkSession (model st) (user_message st) (user_name st) (interviewer_name st)
            (assistant_message st) v (transcribing st)
            (stop_transcription st) (io st).

Definition set_transcribing (v : bool) (st : session) : session :=
  mkSession (model st) (user_message st) (user_name st) (interviewer_name st)
            (assistant_message st) (messages st) v
            (stop_transcription st) (io st).

Definition set_stop_transcription (v : bool) (st : session) : session :=
  mkSession (model st) (user_message st) (user_name st) (interviewer_name st)
            (assistant_message st) (messages st) (transcribing st) v (io st).

Definition set_io (v : list io_call) (st : session) : session :=
  mkSession (model st) (user_message st) (user_name st) (interviewer_name st)
            (assistant_message st) (messages st) (transcribing st)
            (stop_transcription st) v.

(** ** Methods as computations *)

Inductive outcome (A : Type) :=
| Returns (a : A) (st : session)
| Raises (e : exn) (st : session).
Arguments Returns {A} a st.
Arguments Raises {A} e st.

Definition M (A : Type) : Type := session -> outcome A.

Definition ret {A} (a : A) : M A := fun st => Returns a st.

Definition bind {A B} (m : M A) (k : A -> M B) : M B :=
  fun st =>
    match m st with
    | Returns a st' => k a st'
    | Raises e st' => Raises e st'
    end.

Definition raise {A} (e : exn) : M A := fun st => Raises e st.
Definition get {A} (field : session -> A) : M A := fun st => Returns (field st) st.
Definition modify (f : session -> session) : M unit := fun st => Returns tt (f st).
Definition call (c : io_call) : M unit :=
  modify (fun st => set_io (io st ++ [c]) st).

Declare Scope py_scope.
Delimit Scope py_scope with py.
Notation "x <- m ;; k" := (bind m (fun x => k))
  (at level 61, m at next level, right associativity) : py_scope.
Notation "m ;; k" := (bind m (fun _ => k))
  (at level 61, right associativity) : py_scope.
Local Open Scope py_scope.

(** The session an outcome leaves, however it ended. *)
Definition final {A} (o : outcome A) : session :=
  match o with
  | Returns _ st => st
  | Raises _ st => st
  end.

(** [print(text, end=end_)]. *)
Definition print_end (text end_ : string) : M unit := call (Stdout (text ++ end_)).
Definition print (text : string) : M unit := print_end text LF.

(** ** Python's operations on a decoded event *)

Fixpoint dict_get (items : list (string * pyval)) (key : string) : option pyval :=
  match items with
  | [] => None
  | (k, v) :: rest => if String.eqb k key then Some v else dict_get rest key
  end.

(** [v == s] for a string [s]: a value of another type is never equal. *)
Definition py_eq_str (v : pyval) (s : string) : bool :=
  match v with
  | PyStr s' => String.eqb s' s
  | _ => false
  end.

Definition type_name (v : pyval) : string :=
  match v with
  | PyNone => "NoneType"
  | PyBool _ => "bool"
  | PyInt _ => "int"
  | PyFloat _ => "float"
  | PyStr _ => "str"
  | PyList _ => "list"
  | PyDict _ => "dict"
  end.

(** [key in container]: a key of a dict, an element of a list, a substring
    of a string; the other values are not containers. *)
Definition py_contains (key : string) (container : pyval) : M bool :=
  match container with
  | PyDict items => ret (match dict_get items key with
                          | Some _ => true
                          | None => false
                          end)
  | PyList items => ret (existsb (fun v => py_eq_str v key) items)
  | PyStr s => ret (str_contains key s)
  | _ => raise (mkExn TypeError
                  ("argument of type '" ++ type_name container ++ "' is not iterable"))
  end.

(** [container[key]] for a string [key]. *)
Definition py_getitem (container : pyval) (key : string) : M pyval :=
  match container with
  | PyDict items =>
      match dict_get items key with
      | Some v => ret v
      | None => raise (mkExn KeyError ("'" ++ key ++ "'"))
      end
  | PyList _ =>
      raise (mkExn TypeError "list indices must be integers or slices, not str")
  | PyStr _ =>
      raise (mkExn TypeError "string indices must be integers, not 'str'")
  | _ => raise (mkExn TypeError
                  ("'" ++ type_name container ++ "' object is not subscriptable"))
  end.

(** [s + v] for a string [s]. *)
Definition str_add (s : string) (v : pyval) : M string :=
  match v with
  | PyStr t => ret (s ++ t)
  | _ => raise (mkExn TypeError
                  ("can only concatenate str (not " ++ DQUOTE ++ type_name v
                   ++ DQUOTE ++ ") to str"))
  end.

(** ** The conversation log *)

Definition NOTE : string :=
  "Note: Remember to always be concise, brief, straight-to-the-point...".

Definition append_message (role message : string) : M unit :=
  modify (fun st => set_messages (messages st ++ [mkMessage role message]) st).

(** The attributes [__init__] assigns, with the log as line 37 creates it
    and both flags [False]. *)
Definition attributes (cfg : configure.t) : session :=
  mkSession (configure.ai_model cfg) "" (configure.user_name cfg)
            (configure.interviewer_name cfg) ""
            [mkMessage "system" (configure.system_prompt cfg)]
            false false [].

(** [__init__]: the constructor calls [append_message] with its note once
    the log exists. The audio stream and the two clients it opens are the
    outside world of the model. *)
Definition __init__ (cfg : configure.t) : session :=
  final (append_message "user" NOTE (attributes cfg)).

(** ** The conversation processor *)

(** What the completion service answers to one request: the value of
    [response.choices[0].delta.content] of each chunk, [None] included, and
    the exception, if any, that the request or the stream raises once those
    chunks are through. *)
Record completion := mkCompletion {
  increments : list (option string);
  failure : option exn
}.

(** [for content in stream: body]. *)
Fixpoint for_each (body : option string -> M unit)
         (chunks : list (option string)) (failure : option exn) : M unit :=
  match chunks with
  | [] => match failure with
          | Some e => raise e
          | None => ret tt
          end
  | content :: rest => body content ;; for_each body rest failure
  end.

(** The generator [get_response_from_openai], driven by the loop that
    consumes it: the request is made, with the log as it is then, when the
    loop asks for the first item. *)
Definition get_response_from_openai (resp : completion) (transcript : string)
           (body : option string -> M unit) : M unit :=
  mdl <- get model ;;
  msgs <- get messages ;;
  call (ChatCompletionsCreate mdl msgs) ;;
  for_each body (increments resp) (failure resp).

(** [if content:] on an optional string. *)
Definition truthy (content : option string) : bool :=
  match content with
  | Some (String _ _) => true
  | _ => false
  end.

Definition text_of (content : option string) : string :=
  match content with
  | Some s => s
  | None => ""
  end.

(** The body of the [for] loop of [process_transcripts]. *)
Definition show_and_keep (content : option string) : M unit :=
  if truthy content then
    print_end (text_of content) "" ;;
    acc <- get assistant_message ;;
    modify (set_assistant_message (acc ++ text_of content))
  else ret tt.

Definition process_transcripts (resp : completion) (transcript : string) : M unit :=
  print ("Processing..." ++ LF) ;;
  name <- get user_name ;;
  print_end (name ++ ": ") "" ;;
  get_response_from_openai resp transcript show_and_keep ;;
  acc <- get assistant_message ;;
  append_message "assistant" acc ;;
  print (LF ++ LF ++ "Press spacebar to continue transcription.") ;;
  modify (set_assistant_message "").

(** ** The transcript receiver *)

(** What one [await websocket.recv()] followed by [json.loads] comes to. *)
Inductive inbound :=
| RecvRaises (e : exn)
| Undecodable (err : string)
| Decoded (transcript : pyval).

Definition recv_loads (inp : inbound) : M pyval :=
  match inp with
  | RecvRaises e => raise e
  | Undecodable err => raise (mkExn JSONDecodeError err)
  | Decoded transcript => ret transcript
  end.

(** The body of the [while] loop of [receive_transcript]. The toggle is
    read once, after the text has been added to the buffer. *)
Definition receive_cycle (inp : inbound) (resp : completion) : M unit :=
  transcript <- recv_loads inp ;;
  has_text <- py_contains "text" transcript ;;
  is_final <- (if has_text : bool
               then message_type <- py_getitem transcript "message_type" ;;
                    ret (py_eq_str message_type "FinalTranscript")
               else ret false) ;;
  if is_final : bool then
    text <- py_getitem transcript "text" ;;
    buffer <- get user_message ;;
    buffer' <- str_add buffer text ;;
    modify (set_user_message buffer') ;;
    active <- get transcribing ;;
    if negb active then
      name <- get interviewer_name ;;
      buffer <- get user_message ;;
      print (name ++ ": " ++ buffer ++ LF) ;;
      buffer <- get user_message ;;
      append_message "user" buffer ;;
      buffer <- get user_message ;;
      process_transcripts resp buffer ;;
      modify (set_user_message "")
    else ret tt
  else ret tt.

(** One trip round [while not self.stop_transcription], from the head of
    the loop: the flag is tested, and then the task waits for the frame;
    [false] when the loop is left. *)
Definition receive_turn (inp : inbound) (resp : completion) : M bool :=
  stop <- get stop_transcription ;;
  if stop : bool then ret false else receive_cycle inp resp ;; ret true.

(** The same trip seen from the other end, for a task that has passed the
    test and waits in [recv] while keys are pressed: the frame, or the
    exception of [recv], is handled whatever the flag has become, and only
    then is the flag tested again; [false] when the loop is left. *)
Definition receive_next (inp : inbound) (resp : completion) : M bool :=
  receive_cycle inp resp ;;
  stop <- get stop_transcription ;;
  ret (negb stop).

(** [receive_transcript] over the frames that arrive, each with the answer
    of the completion service should the frame lead to a request. When no
    frame is left the task is waiting in [recv]. Nothing else happens
    while the list is consumed, so that the flag is the same when the task
    starts to wait for a frame and when the frame arrives. *)
Fixpoint receive_transcript (arrivals : list (inbound * completion)) : M unit :=
  match arrivals with
  | [] => ret tt
  | (inp, resp) :: rest =>
      go_on <- receive_turn inp resp ;;
      if go_on : bool then receive_transcript rest else ret tt
  end.

(** ** The toggle and the keyboard *)

Definition toggle_transcription : M unit :=
  active <- get transcribing ;;
  modify (set_transcribing (negb active)) ;;
  active <- get transcribing ;;
  print ("Transcription " ++ (if active : bool then "started" else "paused")
         ++ ". Press spacebar to toggle..." ++ LF).

Inductive key := Space | Esc | OtherKey.

(** [on_key_press]: [false] stands for the [False] that stops the
    listener, [true] for the [None] that keeps it. The 0.3 s the method
    waits before it switches an active toggle off is time, which the
    model does not have. *)
Definition on_key_press (k : key) : M bool :=
  match k with
  | Space => toggle_transcription ;; ret true
  | Esc =>
      print "Exiting transcription." ;;
      modify (set_stop_transcription true) ;;
      ret false
  | OtherKey => ret true
  end.

(** ** base64 and json, as far as [send_audio] uses them *)

Module base64.
Definition ALPHABET : string :=
  "ABCDEFGHIJKLMNOPQRSTUVWXYZabcdefghijklmnopqrstuvwxyz0123456789+/".
Definition PAD : ascii := "="%char.

(** The character of the six low bits of [n]. *)
Definition digit (n : Z) : ascii :=
  match String.get (Z.to_nat (Z.land n 63)) ALPHABET with
  | Some c => c
  | None => PAD
  end.

Definition octet (b : byte) : Z := Z.of_N (Byte.to_N b).

(** [base64.b64encode(data).decode("utf-8")]: three bytes make four
    characters, and a last group of one or two bytes is padded. *)
Fixpoint b64encode (data : list byte) : string :=
  match data with
  | [] => EmptyString
  | [a] =>
      let n := Z.shiftl (octet a) 16 in
      String (digit (Z.shiftr n 18)) (String (digit (Z.shiftr n 12))
        (String PAD (String PAD EmptyString)))
  | [a; b] =>
      let n := Z.lor (Z.shiftl (octet a) 16) (Z.shiftl (octet b) 8) in
      String (digit (Z.shiftr n 18)) (String (digit (Z.shiftr n 12))
        (String (digit (Z.shiftr n 6)) (String PAD EmptyString)))
  | a :: b :: c :: rest =>
      let n := Z.lor (Z.lor (Z.shiftl (octet a) 16) (Z.shiftl (octet b) 8))
                     (octet c) in
      String (digit (Z.shiftr n 18)) (String (digit (Z.shiftr n 12))
        (String (digit (Z.shiftr n 6)) (String (digit n) (b64encode rest))))
  end.
End base64.

Module json.
Definition HEX : string := "0123456789abcdef".

Definition hex (n : nat) : ascii :=
  match String.get n HEX with
  | Some c => c
  | None => "0"%char
  end.

(** The replacement of one character by [encode_basestring_ascii]
    ([ensure_ascii] is the default of [json.dumps]); a string of the
    model holds code points below 256. *)
Definition escape (c : ascii) : string :=
  let n := nat_of_ascii c in
  if Nat.eqb n 34 then "\" ++ DQUOTE
  else if Nat.eqb n 92 then "\\"
  else if Nat.eqb n 10 then "\n"
  else if Nat.eqb n 13 then "\r"
  else if Nat.eqb n 9 then "\t"
  else if Nat.eqb n 8 then "\b"
  else if Nat.eqb n 12 then "\f"
  else if Nat.leb 32 n && Nat.leb n 126 then String c EmptyString
  else "\u00" ++ String (hex (Nat.div n 16)) (String (hex (Nat.modulo n 16)) EmptyString).

Fixpoint escape_all (s : string) : string :=
  match s with
  | EmptyString => EmptyString
  | String c s' => escape c ++ escape_all s'
  end.

Definition encode_basestring_ascii (s : string) : string :=
  DQUOTE ++ escape_all s ++ DQUOTE.

Definition item (kv : string * string) : string :=
  encode_basestring_ascii (fst kv) ++ ": " ++ encode_basestring_ascii (snd kv).

(** [json.dumps(d)] for a dict [d] of strings, with the default
    separators. *)
Definition dumps (d : list (string * string)) : string :=
  "{" ++ String.concat ", " (map item d) ++ "}".
End json.

(** ** The audio sender *)

Definition FRAMES_PER_BUFFER : Z := 3200.
Definition WEBSOCKET_URL : string :=
  "wss://api.assemblyai.com/v2/realtime/ws?sample_rate=16000".

(** What [self.stream.read] comes to. *)
Inductive audio_read :=
| Frame (data : list byte)
| ReadRaises (e : exn).

Definition stream_read (num_frames : Z) (r : audio_read) : M (list byte) :=
  call (StreamRead num_frames) ;;
  match r with
  | Frame data => ret data
  | ReadRaises e => raise e
  end.

(** [await websocket.send(payload)]; [closed] is the exception of a
    connection that is no longer open. *)
Definition websocket_send (payload : string) (closed : option exn) : M unit :=
  call (WsSend payload) ;;
  match closed with
  | Some e => raise e
  | None => ret tt
  end.

(** The body of the [while] loop of [send_audio]. *)
Definition send_cycle (r : audio_read) (closed : option exn) : M unit :=
  active <- get transcribing ;;
  if active : bool then
    data <- stream_read FRAMES_PER_BUFFER r ;;
    let encoded_data := base64.b64encode data in
    websocket_send (json.dumps [("audio_data", encoded_data)]) closed
  else ret tt.

Definition send_turn (r : audio_read) (closed : option exn) : M bool :=
  stop <- get stop_transcription ;;
  if stop : bool then ret false else send_cycle r closed ;; ret true.

(** ** The supervisor *)

(** What happens while one connection is open, in the order it happens:
    a key is pressed (in the listener's thread), one of the two tasks of
    the connection takes its turn round its loop, or a task left over from
    an earlier connection takes one. [asyncio.gather] does not cancel the
    other task when one of its tasks raises: that task goes on with the
    socket of its connection, now closed, until it raises itself or the
    run ends. *)
Inductive occurrence :=
| Pressed (k : key)
| SenderTurn (r : audio_read) (closed : option exn)
| ReceiverTurn (inp : inbound) (resp : completion)
| LeftoverSenderTurn (r : audio_read) (closed : option exn)
| LeftoverReceiverTurn (inp : inbound) (resp : completion).

Inductive progress := Done | Waiting.

(** A task nobody awaits: when it raises, the exception stays in the task
    and the session is as the task left it. *)
Definition unretrieved {A} (m : M A) : M unit :=
  fun st => Returns tt (final (m st)).

(** [await asyncio.gather(send_task, receive_task)]: it returns when both
    loops have been left, and the first exception of either task escapes
    from it. [sending]: the sender has not left its loop; it tests the flag
    at the start of each turn. [receiving]: the receiver has passed the
    test of its loop and waits in [recv]; it tests the flag again when it
    has handled the frame. The listener delivers no key once [Esc] has
    stopped it, which is when [stop_transcription] is set. A leftover task
    takes its turn the same way, but its exception reaches nobody. *)
Fixpoint gather (schedule : list occurrence) (sending receiving : bool) : M progress :=
  if negb sending && negb receiving then ret Done else
  match schedule with
  | [] => ret Waiting
  | Pressed k :: rest =>
      stop <- get stop_transcription ;;
      (if stop : bool then ret tt else on_key_press k ;; ret tt) ;;
      gather rest sending receiving
  | SenderTurn r closed :: rest =>
      if sending
      then go_on <- send_turn r closed ;; gather rest go_on receiving
      else gather rest sending receiving
  | ReceiverTurn inp resp :: rest =>
      if receiving
      then go_on <- receive_next inp resp ;; gather rest sending go_on
      else gather rest sending receiving
  | LeftoverSenderTurn r closed :: rest =>
      unretrieved (send_turn r closed) ;;
      gather rest sending receiving
  | LeftoverReceiverTurn inp resp :: rest =>
      unretrieved (receive_cycle inp resp) ;;
      gather rest sending receiving
  end.

(** One pass through the [try] block: the connection may fail to open. *)
Record attempt := mkAttempt {
  refused : option exn;
  schedule : list occurrence
}.

Definition IDLE : string := "Session idle for too long".

(** What the [async with] block does once the connection is open. Both
    tasks start before anything of the schedule happens: the receiver
    tests the flag and, unless it is set, waits for its first frame. *)
Definition connected (a : attempt) : M progress :=
  match refused a with
  | Some e => raise e
  | None =>
      active <- get transcribing ;;
      (if negb active then print "Press spacebar to start transcription."
       else ret tt) ;;
      stop <- get stop_transcription ;;
      gather (schedule a) true (negb stop)
  end.

Definition connection (auth_key : string) (a : attempt) : M progress :=
  call (WsConnect WEBSOCKET_URL auth_key 5 20) ;;
  connected a.

Inductive control := Next | Break | Suspended.

(** The three [except] clauses of [send_receive], in their order. *)
Definition handler (e : exn) : M control :=
  match exn_cls e with
  | ConnectionClosedError =>
      if negb (str_contains IDLE (exn_str e)) then raise e else ret Next
  | CancelledError => ret Break
  | c =>
      if is_Exception c
      then print ("Unexpected error: " ++ exn_str e) ;; ret Break
      else raise e
  end.

Definition try_except {A} (body : M A) (except : exn -> M A) : M A :=
  fun st =>
    match body st with
    | Returns a st' => Returns a st'
    | Raises e st' => except e st'
    end.

(** [send_receive] over the connections the run goes through. [Waiting]:
    the loop has not been left when what is known of the outside world
    ends. *)
Fixpoint send_receive (auth_key : string) (attempts : list attempt) : M progress :=
  stop <- get stop_transcription ;;
  if stop : bool then ret Done else
  match attempts with
  | [] => ret Waiting
  | a :: rest =>
      ctl <- try_except
               (p <- connection auth_key a ;;
                ret (match p with Done => Next | Waiting => Suspended end))
               handler ;;
      match ctl with
      | Next => send_receive auth_key rest
      | Break => ret Done
      | Suspended => ret Waiting
      end
  end.

(** How the process ends. *)
Inductive termination :=
| Normal
| Abnormal (uncaught : exn)
| Running.

(** [run] and the main block: an exception that escapes [send_receive]
    escapes [asyncio.run], [run] and the script, and the interpreter exits
    with a non-zero status; when [send_receive] returns, the script ends
    once the listener thread has. *)
Definition run (auth_key : string) (attempts : list attempt) (st : session)
  : termination * session :=
  match send_receive auth_key attempts st with
  | Returns Done st' => (Normal, st')
  | Returns Waiting st' => (Running, st')
  | Raises e st' => (Abnormal e, st')
  end.

Definition main (cfg : configure.t) (attempts : list attempt) : termination * session :=
  run (configure.auth_key cfg) attempts (__init__ cfg).

(** ** Vocabulary of the statements *)

(** [str.join] with the empty separator. *)
Definition joined (parts : list string) : string :=
  fold_right String.append EmptyString parts.

(** The text a completion stream amounts to, an empty or absent increment
    counting for nothing, and the increments that reach the output. *)
Definition spoken (chunks : list (option string)) : string :=
  joined (map text_of chunks).

Definition shown (chunks : list (option string)) : list string :=
  map text_of (filter truthy chunks).

(** A final-type event: a JSON object whose [message_type] is the final
    variant and whose [text] is a string; its text. *)
Definition final_text (transcript : pyval) : option string :=
  match transcript with
  | PyDict items =>
      match dict_get items "message_type", dict_get items "text" with
      | Some message_type, Some (PyStr text) =>
          if py_eq_str message_type "FinalTranscript" then Some text else None
      | _, _ => None
      end
  | _ => None
  end.

Definition final_arrival (a : inbound * completion) (text : string) : Prop :=
  exists transcript, fst a = Decoded transcript /\ final_text transcript = Some text.

(** The requests made to the completion service among the calls of a
    session. *)
Fixpoint requests (calls : list io_call) : list (string * list message) :=
  match calls with
  | [] => []
  | ChatCompletionsCreate mdl context :: rest => (mdl, context) :: requests rest
  | _ :: rest => requests rest
  end.

(** The entries of a log that carry a given role. *)
Definition with_role (r : string) (log : list message) : list message :=
  filter (fun m => String.eqb (role m) r) log.

Definition known_role (r : string) : Prop :=
  r = "system" \/ r = "user" \/ r = "assistant".

(** The session the loop over a stream leaves: every non-empty increment
    written out and added to the accumulator, whether the stream then ends
    or fails. *)
Definition drained (chunks : list (option string)) (st : session) : session :=
  set_io (io st ++ map Stdout (shown chunks))
         (set_assistant_message (assistant_message st ++ spoken chunks) st).

(** The session once [process_transcripts] has made its request, and the
    session it leaves when the stream has ended: the assistant entry
    appended, the prompt written, the accumulator reset. *)
Definition started (st : session) : session :=
  set_io (io st ++ [Stdout ("Processing..." ++ LF ++ LF);
                    Stdout (user_name st ++ ": ");
                    ChatCompletionsCreate (model st) (messages st)]) st.

Definition finished (st : session) : session :=
  set_assistant_message ""
    (set_io (io st ++ [Stdout (LF ++ LF ++ "Press spacebar to continue transcription."
                               ++ LF)])
       (set_messages (messages st ++ [mkMessage "assistant" (assistant_message st)])
          st)).

(** The session at the moment the receiver hands an utterance over: the
    text added to the buffer, the utterance written out, and the user
    entry appended. *)
Definition handed_over (text : string) (st : session) : session :=
  let buffer := user_message st ++ text in
  set_messages (messages st ++ [mkMessage "user" buffer])
    (set_io (io st ++ [Stdout (interviewer_name st ++ ": " ++ buffer ++ LF ++ LF)])
       (set_user_message buffer st)).

(** An event that the test of [receive_transcript] turns down. *)
Definition lacks (key : string) (transcript : pyval) : bool :=
  match transcript with
  | PyDict items =>
      match dict_get items key with
      | None => true
      | Some _ => false
      end
  | _ => false
  end.

Definition not_final_type (transcript : pyval) : bool :=
  match transcript with
  | PyDict items =>
      match dict_get items "message_type" with
      | Some message_type => negb (py_eq_str message_type "FinalTranscript")
      | None => false
      end
  | _ => false
  end.

Definition unrecognized (transcript : pyval) : bool :=
  lacks "text" transcript || lacks "message_type" transcript
  || not_final_type transcript.

Definition malformed_or_unrecognized (inp : inbound) : bool :=
  match inp with
  | RecvRaises _ => false
  | Undecodable _ => true
  | Decoded transcript => unrecognized transcript
  end.

(** To ignore a frame: the cycle returns and the session is as it was. *)
Definition ignored (inp : inbound) : Prop :=
  forall resp st, receive_cycle inp resp st = Returns tt st.

Definition appended_role (m : message) : Prop :=
  role m = "user" \/ role m = "assistant".

Definition carries (log : list message) (request : string * list message) : Prop :=
  exists more, snd request = (log ++ more)%list.

(** [extends st st']: from [st] to [st'] the log has only been appended
    to, with entries of role user or assistant, calls have only been added,
    and every request among them carried a log that starts with the log of
    [st]. *)
Definition extends (st st' : session) : Prop :=
  (exists new, messages st' = (messages st ++ new)%list /\ Forall appended_role new)
  /\ (exists calls, io st' = (io st ++ calls)%list
                    /\ Forall (carries (messages st)) (requests calls)).

Definition respects {A} (m : M A) : Prop :=
  forall st, extends st (final (m st)).

(** A single occurrence, outside the loops. *)
Definition occur (o : occurrence) : M unit :=
  match o with
  | Pressed k => on_key_press k ;; ret tt
  | SenderTurn r closed => send_turn r closed ;; ret tt
  | ReceiverTurn inp resp => receive_next inp resp ;; ret tt
  | LeftoverSenderTurn r closed => unretrieved (send_turn r closed)
  | LeftoverReceiverTurn inp resp => unretrieved (receive_cycle inp resp)
  end.

(** The sessions a run can be in: the one the constructor makes, and what
    an occurrence or a stretch of the supervisor loop makes of one. *)
Inductive reachable (cfg : configure.t) : session -> Prop :=
| reachable_init : reachable cfg (__init__ cfg)
| reachable_occur st o :
    reachable cfg st -> reachable cfg (final (occur o st))
| reachable_loop st attempts :
    reachable cfg st ->
    reachable cfg (final (send_receive (configure.auth_key cfg) attempts st)).

(** The errors of the connection: it was closed, with or without an error
    code, the handshake was rejected, or the socket failed. *)
Definition connection_error (c : exn_class) : bool :=
  match c with
  | ConnectionClosedError | ConnectionClosedOK | InvalidStatusCode | OSError => true
  | _ => false
  end.

Definition idle_disconnect (e : exn) : bool :=
  exn_class_eqb (exn_cls e) ConnectionClosedError
  && str_contains IDLE (exn_str e).

(** What [send_receive] logs of an exception of the last [except] clause. *)
Definition logged (e : exn) (st : session) : session :=
  set_io (io st ++ [Stdout ("Unexpected error: " ++ exn_str e ++ LF)]) st.

(** Sample inputs: events, answers of the completion service, sessions of
    the shipped configuration and exceptions of the connection, with the
    texts the libraries give them. *)
Definition final_event (text : string) : pyval :=
  PyDict [("message_type", PyStr "FinalTranscript"); ("text", PyStr text)].

Definition partial_event (text : string) : pyval :=
  PyDict [("message_type", PyStr "PartialTranscript"); ("text", PyStr text)].

Definition answer : completion :=
  mkCompletion [Some "Hi"; Some ""; None; Some " back"] None.

Definition broken_answer : completion :=
  mkCompletion [Some "Hi"] (Some (mkExn CompletionError "Connection error.")).

(** The session of the shipped configuration, as constructed and with the
    toggle pressed once. *)
Definition paused0 : session := __init__ configure.shipped.
Definition active0 : session := set_transcribing true paused0.

(** A paused session whose buffer holds the start of an utterance: the
    toggle was switched on, a final event arrived, and the toggle was
    switched off before the rest of the sentence came. *)
Definition holding : session :=
  final (on_key_press Space
           (final (receive_cycle (Decoded (final_event "Hello ")) answer
                     (final (on_key_press Space paused0))))).

Definition stream_closed : exn := mkExn OSError "[Errno -9988] Stream closed".

Definition idle_closed : exn :=
  mkExn ConnectionClosedError
        "received 4031 (private use) Session idle for too long; then sent 4031 (private use) Session idle for too long".

Definition unauthorized_closed : exn :=
  mkExn ConnectionClosedError
        "received 4001 (private use) Not authorized; then sent 4001 (private use) Not authorized".

Definition handshake_rejected : exn :=
  mkExn InvalidStatusCode "server rejected WebSocket connection: HTTP 401".

Definition closed_ok : exn :=
  mkExn ConnectionClosedOK "received 1000 (OK); then sent 1000 (OK)".

Definition not_json : string := "Expecting value: line 1 column 1 (char 0)".

(** A connection on which the receiver's first [recv] raises. *)
Definition closing (e : exn) : attempt :=
  mkAttempt None [ReceiverTurn (RecvRaises e) answer].

(** ** Vocabulary of the further properties *)

(** The text of a frame that is a final-type event. *)
Definition inbound_final_text (inp : inbound) : option string :=
  match inp with
  | Decoded transcript => final_text transcript
  | _ => None
  end.

(** A Python value that is neither a dict, a list nor a string. *)
Definition scalar (v : pyval) : bool :=
  match v with
  | PyNone | PyBool _ | PyInt _ | PyFloat _ => true
  | _ => false
  end.

Definition is_str (v : pyval) : bool :=
  match v with
  | PyStr _ => true
  | _ => false
  end.


(** [keyboard.Listener(on_press=self.on_key_press)] over the keys pressed:
    the listener calls the method for each key, and stops at the first
    call that returns [False]. *)
Fixpoint listener (keys : list key) : M unit :=
  match keys with
  | [] => ret tt
  | k :: rest =>
      go_on <- on_key_press k ;;
      if go_on : bool then listener rest else ret tt
  end.

(** Whether the space bar is pressed an odd number of times before the
    first [Esc], and whether [Esc] is pressed. *)
Fixpoint odd_spaces (keys : list key) : bool :=
  match keys with
  | [] => false
  | Space :: rest => negb (odd_spaces rest)
  | Esc :: _ => false
  | OtherKey :: rest => odd_spaces rest
  end.

Definition is_esc (k : key) : bool :=
  match k with
  | Esc => true
  | _ => false
  end.


Definition is_receiver_turn (o : occurrence) : bool :=
  match o with
  | ReceiverTurn _ _ => true
  | _ => false
  end.

(** The turns of a task that an earlier connection left behind. *)
Definition is_leftover_sender (o : occurrence) : bool :=
  match o with
  | LeftoverSenderTurn _ _ => true
  | _ => false
  end.



(** The fields of a session that only the constructor and the keyboard
    set. *)
Definition same_settings (st st' : session) : Prop :=
  transcribing st' = transcribing st
  /\ stop_transcription st' = stop_transcription st
  /\ model st' = model st
  /\ user_name st' = user_name st
  /\ interviewer_name st' = interviewer_name st.


(** A request that hands an utterance over: it names the model and the log
    it carries ends with an entry of role user. *)
Definition hands_over (mdl : string) (request : string * list message) : Prop :=
  fst request = mdl
  /\ exists body text, snd request = (body ++ [mkMessage "user" text])%list.

(** [steady st st']: from [st] to [st'] the model is the same, requests
    have only been added, each of them a hand-over, and the log has gained
    one user entry for each of them and at most one assistant entry for
    each. *)
Definition steady (st st' : session) : Prop :=
  model st' = model st
  /\ exists new,
       requests (io st') = (requests (io st) ++ new)%list
       /\ Forall (hands_over (model st)) new
       /\ (List.length (with_role "user" (messages st'))
           = List.length (with_role "user" (messages st)) + List.length new)%nat
       /\ (List.length (with_role "assistant" (messages st))
           <= List.length (with_role "assistant" (messages st')))%nat
       /\ (List.length (with_role "assistant" (messages st'))
           <= List.length (with_role "assistant" (messages st)) + List.length new)%nat.


(** The connections opened among the calls of a session. *)
Definition is_connect (c : io_call) : bool :=
  match c with
  | WsConnect _ _ _ _ => true
  | _ => false
  end.

(** The calls of a session that touch the microphone or send on the
    socket. *)
Fixpoint audio_calls (calls : list io_call) : list io_call :=
  match calls with
  | [] => []
  | StreamRead n :: rest => StreamRead n :: audio_calls rest
  | WsSend payload :: rest => WsSend payload :: audio_calls rest
  | _ :: rest => audio_calls rest
  end.





(** The reading of base64 text, for the statements about the payload: the
    value of a character of the alphabet, and the decoding of RFC 4648,
    which takes four characters at a time and accepts padding in the last
    group only. *)
Fixpoint index_in (c : ascii) (s : string) : option Z :=
  match s with
  | EmptyString => None
  | String c' s' =>
      if Ascii.eqb c c' then Some 0 else option_map Z.succ (index_in c s')
  end.

Definition b64_value (c : ascii) : option Z := index_in c base64.ALPHABET.

Definition to_byte (n : Z) : byte :=
  match Byte.of_N (Z.to_N n) with
  | Some b => b
  | None => x00
  end.

Fixpoint b64decode (s : string) : option (list byte) :=
  match s with
  | EmptyString => Some []
  | String c1 (String c2 (String c3 (String c4 rest))) =>
      match b64_value c1, b64_value c2 with
      | Some v1, Some v2 =>
          let n2 := v1 * 64 + v2 in
          if Ascii.eqb c3 base64.PAD then
            match Ascii.eqb c4 base64.PAD, rest with
            | true, EmptyString => Some [to_byte (n2 / 16)]
            | _, _ => None
            end
          else
            match b64_value c3 with
            | Some v3 =>
                let n3 := n2 * 64 + v3 in
                if Ascii.eqb c4 base64.PAD then
                  match rest with
                  | EmptyString => Some [to_byte (n3 / 1024); to_byte (n3 / 4 mod 256)]
                  | _ => None
                  end
                else
                  match b64_value c4 with
                  | Some v4 =>
                      let n := n3 * 64 + v4 in
                      option_map
                        (fun tail => to_byte (n / 65536) :: to_byte (n / 256 mod 256)
                                     :: to_byte (n mod 256) :: tail)
                        (b64decode rest)
                  | None => None
                  end
            | None => None
            end
      | _, _ => None
      end
  | _ => None
  end.


(** What a turn adds while both tasks stream: the calls of a turn of the
    sender that reads a frame, the text of a final-type event the receiver
    gets, and whether a turn is one of these two. *)
Definition turn_calls (o : occurrence) : list io_call :=
  match o with
  | SenderTurn (Frame data) _ =>
      [StreamRead FRAMES_PER_BUFFER;
       WsSend (json.dumps [("audio_data", base64.b64encode data)])]
  | _ => []
  end.

Definition turn_text (o : occurrence) : string :=
  match o with
  | ReceiverTurn inp _ => text_of (inbound_final_text inp)
  | _ => EmptyString
  end.

Definition streams (o : occurrence) : bool :=
  match o with
  | SenderTurn (Frame _) None => true
  | ReceiverTurn inp _ =>
      match inbound_final_text inp with
      | Some _ => true
      | None => false
      end
  | _ => false
  end.

(** A turn while both tasks stream, or a turn of the sender that an
    earlier connection left behind. *)
Definition carries_on (o : occurrence) : bool :=
  streams o || is_leftover_sender o.

(** ** Strings and lists *)

Lemma append_empty_r (s : string) : s ++ "" = s.
Proof. induction s as [|c s IH]; simpl; [reflexivity | now rewrite IH]. Qed.

Lemma append_assoc (a b c : string) : (a ++ b) ++ c = a ++ (b ++ c).
Proof. induction a as [|x a IH]; simpl; [reflexivity | now rewrite IH]. Qed.

Lemma joined_app (l1 l2 : list string) : joined (l1 ++ l2) = joined l1 ++ joined l2.
Proof.
  induction l1 as [|x l1 IH]; simpl; [reflexivity |].
  now rewrite IH, append_assoc.
Qed.

Lemma requests_app (l1 l2 : list io_call) :
  requests (l1 ++ l2) = (requests l1 ++ requests l2)%list.
Proof.
  induction l1 as [|c l1 IH]; simpl; [reflexivity |].
  destruct c; simpl; now rewrite ?IH.
Qed.

Lemma requests_Stdout (texts : list string) : requests (map Stdout texts) = [].
Proof. induction texts; simpl; auto. Qed.

Lemma with_role_app (r : string) (l1 l2 : list message) :
  with_role r (l1 ++ l2) = (with_role r l1 ++ with_role r l2)%list.
Proof. apply filter_app. Qed.

(** ** The conversation processor, in one equation *)

Lemma session_eta (st : session) :
  mkSession (model st) (user_message st) (user_name st) (interviewer_name st)
            (assistant_message st) (messages st) (transcribing st)
            (stop_transcription st) (io st) = st.
Proof. now destruct st. Qed.

Lemma for_each_drains (chunks : list (option string)) (failure : option exn) :
  forall st,
    for_each show_and_keep chunks failure st =
    match failure with
    | Some e => Raises e (drained chunks st)
    | None => Returns tt (drained chunks st)
    end.
Proof.
  induction chunks as [|content rest IH]; intros st.
  - assert (E : drained [] st = st).
    { unfold drained, shown, spoken; simpl.
      rewrite app_nil_r, append_empty_r.
      unfold set_io, set_assistant_message; simpl. apply session_eta. }
    simpl. rewrite E. now destruct failure.
  - cbn [for_each]. unfold bind at 1.
    assert (E : exists st1, show_and_keep content st = Returns tt st1
                            /\ drained rest st1 = drained (content :: rest) st).
    { unfold show_and_keep. destruct content as [[|c s]|]; cbn [truthy].
      - exists st. split; [reflexivity |]. reflexivity.
      - eexists. split; [reflexivity |].
        unfold drained, shown, spoken, set_io, set_assistant_message.
        cbn. rewrite append_empty_r, append_assoc, <- app_assoc. reflexivity.
      - exists st. split; reflexivity. }
    destruct E as (st1 & -> & <-). apply IH.
Qed.

Lemma process_transcripts_eq (resp : completion) (transcript : string) (st : session) :
  process_transcripts resp transcript st =
  match failure resp with
  | Some e => Raises e (drained (increments resp) (started st))
  | None => Returns tt (finished (drained (increments resp) (started st)))
  end.
Proof.
  unfold process_transcripts, get_response_from_openai.
  unfold bind at 1. unfold print at 1, print_end at 1, call at 1, modify at 1.
  unfold bind at 1. unfold get at 1.
  unfold bind at 1. unfold print_end at 1, call at 1, modify at 1.
  unfold bind at 1. unfold bind at 1. unfold get at 1.
  unfold bind at 1. unfold get at 1.
  unfold bind at 1. unfold call at 1, modify at 1.
  rewrite for_each_drains.
  assert (E : forall x : session,
             x = started st ->
             match failure resp with
             | Some e => Raises e (drained (increments resp) x)
             | None => Returns tt (drained (increments resp) x)
             end = match failure resp with
                   | Some e => Raises (A := unit) e (drained (increments resp) (started st))
                   | None => Returns tt (drained (increments resp) (started st))
                   end) by (intros x ->; reflexivity).
  rewrite E.
  - destruct (failure resp); [reflexivity |].
    unfold bind, get, append_message, print, print_end, call, modify, finished.
    cbn. reflexivity.
  - unfold started, set_io. cbn.
    rewrite !append_assoc, append_empty_r, <- !app_assoc. reflexivity.
Qed.


Lemma messages_drained chunks st : messages (drained chunks st) = messages st.
Proof. reflexivity. Qed.

Lemma messages_started st : messages (started st) = messages st.
Proof. reflexivity. Qed.

Lemma requests_drained chunks st :
  requests (io (drained chunks st)) = requests (io st).
Proof.
  unfold drained; simpl. now rewrite requests_app, requests_Stdout, app_nil_r.
Qed.

Lemma requests_started st :
  requests (io (started st)) = (requests (io st) ++ [(model st, messages st)])%list.
Proof. unfold started; simpl. now rewrite requests_app. Qed.

(** ** The receiver, case by case *)

Lemma receive_cycle_final (transcript : pyval) (text : string)
      (resp : completion) (st : session) :
  final_text transcript = Some text ->
  receive_cycle (Decoded transcript) resp st =
  if transcribing st
  then Returns tt (set_user_message (user_message st ++ text) st)
  else (process_transcripts resp (user_message st ++ text) ;;
        modify (set_user_message "")) (handed_over text st).
Proof.
  intros H. destruct transcript as [| | | | |?|items]; try discriminate H.
  simpl in H.
  destruct (dict_get items "message_type") as [mt|] eqn:Hmt; [|discriminate H].
  destruct (dict_get items "text") as [[| | | |s| |]|] eqn:Htext; try discriminate H.
  destruct (py_eq_str mt "FinalTranscript") eqn:Hfinal; [|discriminate H].
  injection H as ->.
  unfold receive_cycle, recv_loads, py_contains, py_getitem.
  unfold bind at 1. unfold ret at 1.
  unfold bind at 1. rewrite Htext. unfold ret at 1.
  unfold bind at 1. unfold bind at 1. rewrite Hmt. unfold ret at 1, ret at 1.
  rewrite Hfinal.
  unfold bind at 1. unfold ret at 1.
  unfold bind at 1. unfold get at 1.
  unfold bind at 1. unfold str_add, ret at 1.
  unfold bind at 1. unfold modify at 1.
  unfold bind at 1. unfold get at 1.
  change (transcribing (set_user_message (user_message st ++ text) st))
    with (transcribing st).
  destruct (transcribing st); [reflexivity |].
  cbn [negb].
  unfold bind at 1. unfold get at 1.
  unfold bind at 1. unfold get at 1.
  unfold bind at 1. unfold print at 1, print_end at 1, call at 1, modify at 1.
  unfold bind at 1. unfold get at 1.
  unfold bind at 1. unfold append_message at 1, modify at 1.
  unfold bind at 1. unfold get at 1.
  unfold handed_over, set_messages, set_io, set_user_message. cbn.
  repeat first [rewrite append_assoc | progress cbn]. reflexivity.
Qed.

(** The hand-over, to its end: the exception of the completion service
    escapes with the buffer as it is, and only a processor that returns
    lets the buffer be reset. *)
Lemma handoff_outcome (text : string) (resp : completion) (st : session) :
  (process_transcripts resp (user_message st ++ text) ;;
   modify (set_user_message "")) (handed_over text st) =
  match failure resp with
  | Some e => Raises e (drained (increments resp) (started (handed_over text st)))
  | None =>
      Returns tt (set_user_message ""
                    (finished (drained (increments resp)
                                 (started (handed_over text st)))))
  end.
Proof.
  unfold bind. rewrite process_transcripts_eq.
  destruct (failure resp); reflexivity.
Qed.

Lemma handoff_log (text : string) (resp : completion) (st : session) :
  let buffer := user_message st ++ text in
  let o := (process_transcripts resp buffer ;;
            modify (set_user_message "")) (handed_over text st) in
  messages (final o) =
    (messages st ++ mkMessage "user" buffer ::
       match failure resp with
       | Some _ => []
       | None => [mkMessage "assistant" (assistant_message st ++ spoken (increments resp))]
       end)%list
  /\ requests (io (final o)) =
       (requests (io st) ++ [(model st, messages st ++ [mkMessage "user" buffer])])%list.
Proof.
  intros buffer o. subst o buffer. rewrite handoff_outcome.
  destruct (failure resp) as [e|]; cbn [final]; split.
  - reflexivity.
  - rewrite requests_drained, requests_started.
    unfold handed_over; simpl. now rewrite requests_app, app_nil_r.
  - unfold finished; simpl. now rewrite <- app_assoc.
  - change (io (set_user_message "" ?x)) with (io x).
    unfold finished; simpl.
    rewrite !requests_app; simpl.
    rewrite requests_Stdout; simpl. now rewrite !app_nil_r.
Qed.

Lemma receive_cycle_no_text (transcript : pyval) (resp : completion) (st : session) :
  lacks "text" transcript = true ->
  receive_cycle (Decoded transcript) resp st = Returns tt st.
Proof.
  destruct transcript as [| | | | |?|items]; try discriminate.
  unfold lacks, receive_cycle, recv_loads, py_contains, bind, ret.
  now destruct (dict_get items "text").
Qed.

Lemma receive_cycle_other_type (transcript : pyval) (resp : completion) (st : session) :
  not_final_type transcript = true ->
  receive_cycle (Decoded transcript) resp st = Returns tt st.
Proof.
  destruct transcript as [| | | | |?|items]; try discriminate.
  unfold not_final_type, receive_cycle, recv_loads, py_contains, py_getitem, bind, ret.
  destruct (dict_get items "message_type") as [mt|]; [|discriminate].
  intros H. destruct (dict_get items "text"); [|reflexivity].
  now destruct (py_eq_str mt "FinalTranscript").
Qed.

Lemma receive_cycle_no_type (transcript : pyval) (resp : completion) (st : session) :
  lacks "text" transcript = false ->
  lacks "message_type" transcript = true ->
  receive_cycle (Decoded transcript) resp st =
  Raises (mkExn KeyError "'message_type'") st.
Proof.
  destruct transcript as [| | | | |?|items]; try discriminate.
  unfold lacks, receive_cycle, recv_loads, py_contains, py_getitem, bind, ret, raise.
  destruct (dict_get items "text"); [|discriminate].
  now destruct (dict_get items "message_type").
Qed.

Lemma receive_cycle_undecodable (err : string) (resp : completion) (st : session) :
  receive_cycle (Undecodable err) resp st = Raises (mkExn JSONDecodeError err) st.
Proof. reflexivity. Qed.

(** ** What no method undoes *)

Lemma extends_refl st : extends st st.
Proof.
  split; [exists [] | exists []]; rewrite app_nil_r; split; auto; constructor.
Qed.

Lemma carries_shorter (log new : list message) rq :
  carries (log ++ new) rq -> carries log rq.
Proof. intros [more E]. exists (new ++ more)%list. now rewrite E, app_assoc. Qed.

Lemma extends_trans a b c : extends a b -> extends b c -> extends a c.
Proof.
  intros [(n1 & E1 & F1) (c1 & I1 & R1)] [(n2 & E2 & F2) (c2 & I2 & R2)].
  split.
  - exists (n1 ++ n2)%list. split.
    + now rewrite E2, E1, app_assoc.
    + apply Forall_app; auto.
  - exists (c1 ++ c2)%list. split.
    + now rewrite I2, I1, app_assoc.
    + rewrite requests_app. apply Forall_app; split; [assumption |].
      rewrite E1 in R2.
      eapply Forall_impl; [|exact R2]. intros rq. apply carries_shorter.
Qed.

Lemma extends_fields st st' :
  messages st' = messages st -> io st' = io st -> extends st st'.
Proof.
  intros E I. split; [exists [] | exists []]; rewrite app_nil_r; split; auto;
    constructor.
Qed.

Lemma extends_call c st :
  (forall mdl context, c = ChatCompletionsCreate mdl context -> context = messages st) ->
  extends st (set_io (io st ++ [c]) st).
Proof.
  intros H. split.
  - exists []. rewrite app_nil_r. split; [reflexivity | constructor].
  - exists [c]. split; [reflexivity |].
    destruct c; simpl; constructor; try constructor.
    exists []. simpl. rewrite app_nil_r. now apply (H model0).
Qed.

Lemma extends_append r m st :
  r = "user" \/ r = "assistant" ->
  extends st (set_messages (messages st ++ [mkMessage r m]) st).
Proof.
  intros H. split.
  - exists [mkMessage r m]. split; [reflexivity |]. constructor; [exact H | constructor].
  - exists []. rewrite app_nil_r. split; [reflexivity | constructor].
Qed.

Lemma respects_ret {A} (a : A) : respects (ret a).
Proof. intros st. apply extends_refl. Qed.

Lemma respects_raise {A} (e : exn) : respects (@raise A e).
Proof. intros st. apply extends_refl. Qed.

Lemma respects_get {A} (field : session -> A) : respects (get field).
Proof. intros st. apply extends_refl. Qed.

Lemma respects_bind {A B} (m : M A) (k : A -> M B) :
  respects m -> (forall a, respects (k a)) -> respects (bind m k).
Proof.
  intros Hm Hk st. unfold bind. specialize (Hm st).
  destruct (m st) as [a st'|e st']; simpl in Hm; [|exact Hm].
  eapply extends_trans; [exact Hm | apply Hk].
Qed.

Lemma respects_modify (f : session -> session) :
  (forall st, messages (f st) = messages st /\ io (f st) = io st) ->
  respects (modify f).
Proof. intros H st. simpl. apply extends_fields; apply H. Qed.

Lemma respects_print_end text end_ : respects (print_end text end_).
Proof. intros st. apply extends_call. discriminate. Qed.

Lemma respects_print text : respects (print text).
Proof. apply respects_print_end. Qed.

Lemma respects_append_message r m :
  r = "user" \/ r = "assistant" -> respects (append_message r m).
Proof. intros H st. now apply extends_append. Qed.

Lemma respects_try_except {A} (body : M A) (except : exn -> M A) :
  respects body -> (forall e, respects (except e)) -> respects (try_except body except).
Proof.
  intros Hb He st. unfold try_except. specialize (Hb st).
  destruct (body st) as [a st'|e st']; simpl in Hb; [exact Hb |].
  eapply extends_trans; [exact Hb | apply He].
Qed.

Create HintDb respects.
#[local] Hint Resolve respects_ret respects_raise respects_get respects_print
  respects_print_end respects_append_message : respects.

(** One step through the body of a method. *)
Ltac respects_step :=
  match goal with
  | |- respects (bind _ _) => apply respects_bind; [|intros ?]
  | |- respects (modify _) => apply respects_modify; intros ?; split; reflexivity
  | |- respects (if ?b then _ else _) => destruct b
  | |- respects (match ?x with _ => _ end) => destruct x
  | |- respects _ => solve [auto with respects]
  end.

Lemma respects_for_each body chunks failure :
  (forall c, respects (body c)) -> respects (for_each body chunks failure).
Proof.
  intros Hb. induction chunks as [|c rest IH]; simpl.
  - destruct failure; auto with respects.
  - apply respects_bind; auto.
Qed.

Lemma respects_show_and_keep content : respects (show_and_keep content).
Proof. unfold show_and_keep. repeat respects_step. Qed.

Lemma respects_get_response resp transcript :
  respects (get_response_from_openai resp transcript show_and_keep).
Proof.
  intros st. unfold get_response_from_openai, bind at 1 2 3, get, call, modify.
  eapply extends_trans.
  - apply (extends_call (ChatCompletionsCreate (model st) (messages st))).
    intros mdl context E. now injection E.
  - apply respects_for_each, respects_show_and_keep.
Qed.
#[local] Hint Resolve respects_get_response : respects.

Lemma respects_process_transcripts resp transcript :
  respects (process_transcripts resp transcript).
Proof. unfold process_transcripts. repeat respects_step. Qed.
#[local] Hint Resolve respects_process_transcripts : respects.

Lemma respects_call c :
  requests [c] = [] -> respects (call c).
Proof.
  intros H st. apply extends_call. intros mdl context ->. discriminate H.
Qed.

Ltac respects_auto :=
  repeat first
    [ respects_step
    | match goal with
      | |- respects (call _) => apply respects_call; reflexivity
      end ].

Lemma respects_py_contains key container : respects (py_contains key container).
Proof. unfold py_contains. respects_auto. Qed.

Lemma respects_py_getitem container key : respects (py_getitem container key).
Proof. unfold py_getitem. respects_auto. Qed.

Lemma respects_str_add s v : respects (str_add s v).
Proof. unfold str_add. respects_auto. Qed.

Lemma respects_recv_loads inp : respects (recv_loads inp).
Proof. unfold recv_loads. respects_auto. Qed.
#[local] Hint Resolve respects_py_contains respects_py_getitem respects_str_add
  respects_recv_loads : respects.

Lemma respects_receive_cycle inp resp : respects (receive_cycle inp resp).
Proof. unfold receive_cycle. respects_auto. Qed.
#[local] Hint Resolve respects_receive_cycle : respects.

Lemma respects_receive_turn inp resp : respects (receive_turn inp resp).
Proof. unfold receive_turn. respects_auto. Qed.

Lemma respects_receive_next inp resp : respects (receive_next inp resp).
Proof. unfold receive_next. respects_auto. Qed.

Lemma respects_unretrieved {A} (m : M A) : respects m -> respects (unretrieved m).
Proof. intros H st. exact (H st). Qed.

Lemma respects_toggle_transcription : respects toggle_transcription.
Proof. unfold toggle_transcription. respects_auto. Qed.
#[local] Hint Resolve respects_receive_turn respects_receive_next
  respects_unretrieved respects_toggle_transcription : respects.

Lemma respects_on_key_press k : respects (on_key_press k).
Proof. unfold on_key_press. respects_auto. Qed.

Lemma respects_send_cycle r closed : respects (send_cycle r closed).
Proof. unfold send_cycle, stream_read, websocket_send. respects_auto. Qed.
#[local] Hint Resolve respects_on_key_press respects_send_cycle : respects.

Lemma respects_send_turn r closed : respects (send_turn r closed).
Proof. unfold send_turn. respects_auto. Qed.
#[local] Hint Resolve respects_send_turn : respects.

Lemma respects_occur o : respects (occur o).
Proof. unfold occur. respects_auto. Qed.

Lemma respects_receive_transcript arrivals : respects (receive_transcript arrivals).
Proof.
  induction arrivals as [|[inp resp] rest IH]; simpl; respects_auto.
Qed.

Lemma respects_gather schedule sending receiving :
  respects (gather schedule sending receiving).
Proof.
  revert sending receiving.
  induction schedule as [|o rest IH]; intros sending receiving.
  - simpl. respects_auto.
  - cbn [gather]. destruct (negb sending && negb receiving); [auto with respects |].
    destruct o; respects_auto; apply IH.
Qed.
#[local] Hint Resolve respects_gather : respects.

Lemma respects_connected a : respects (connected a).
Proof. unfold connected. respects_auto. Qed.
#[local] Hint Resolve respects_connected : respects.

Lemma respects_connection auth a : respects (connection auth a).
Proof. unfold connection. respects_auto. Qed.

Lemma respects_handler e : respects (handler e).
Proof. unfold handler. respects_auto. Qed.
#[local] Hint Resolve respects_connection respects_handler : respects.

Lemma respects_send_receive auth attempts : respects (send_receive auth attempts).
Proof.
  induction attempts as [|a rest IH]; simpl; respects_auto.
  apply respects_try_except; [|auto with respects]. respects_auto.
Qed.

(** Whatever a run has gone through, its session extends the one the
    constructor made. *)
Lemma reachable_extends cfg st : reachable cfg st -> extends (__init__ cfg) st.
Proof.
  induction 1 as [|st o _ IH|st attempts _ IH].
  - apply extends_refl.
  - eapply extends_trans; [exact IH | apply respects_occur].
  - eapply extends_trans; [exact IH | apply respects_send_receive].
Qed.

(** ** The payload of the sender *)

(** A base64 character goes through the JSON encoder unchanged. *)
Lemma escape_digit (n : Z) :
  json.escape (base64.digit n) = String (base64.digit n) EmptyString.
Proof.
  unfold base64.digit.
  generalize (Z.to_nat (Z.land n 63)) as k. intros k.
  do 64 (destruct k as [|k]; [reflexivity |]).
  reflexivity.
Qed.

Lemma escape_pad : json.escape base64.PAD = String base64.PAD EmptyString.
Proof. reflexivity. Qed.

Lemma escape_all_b64encode (data : list byte) :
  json.escape_all (base64.b64encode data) = base64.b64encode data.
Proof.
  enough (H : json.escape_all (base64.b64encode data) = base64.b64encode data
              /\ (forall a, json.escape_all (base64.b64encode (a :: data))
                            = base64.b64encode (a :: data))
              /\ (forall a b, json.escape_all (base64.b64encode (a :: b :: data))
                              = base64.b64encode (a :: b :: data)))
    by apply H.
  induction data as [|c rest (IH0 & IH1 & IH2)].
  - repeat split; intros;
      cbn [base64.b64encode json.escape_all];
      rewrite ?escape_digit, ?escape_pad; reflexivity.
  - repeat split; intros; [apply IH1 | apply IH2 |].
    cbn [base64.b64encode json.escape_all].
    rewrite !escape_digit, IH0. reflexivity.
Qed.

Lemma dumps_audio_data (data : list byte) :
  json.dumps [("audio_data", base64.b64encode data)] =
  "{" ++ DQUOTE ++ "audio_data" ++ DQUOTE ++ ": "
      ++ DQUOTE ++ base64.b64encode data ++ DQUOTE ++ "}".
Proof.
  unfold json.dumps, json.item, json.encode_basestring_ascii.
  cbn [map fst snd String.concat].
  rewrite escape_all_b64encode.
  change (json.escape_all "audio_data") with "audio_data".
  rewrite !append_assoc. reflexivity.
Qed.

(** The encoder on the test vectors of RFC 4648. *)
Example b64encode_rfc4648 :
  map (fun s => base64.b64encode (list_byte_of_string s))
      [""; "f"; "fo"; "foo"; "foob"; "fooba"; "foobar"]
  = [""; "Zg=="; "Zm8="; "Zm9v"; "Zm9vYg=="; "Zm9vYmE="; "Zm9vYmFy"].
Proof. reflexivity. Qed.

(** ** The receiver and the processor: the claims *)

Lemma toggle_transcription_eq (st : session) :
  toggle_transcription st =
  Returns tt
    (set_io (io st ++ [Stdout ("Transcription "
                               ++ (if negb (transcribing st) then "started" else "paused")
                               ++ ". Press spacebar to toggle..." ++ LF ++ LF)])
       (set_transcribing (negb (transcribing st)) st)).
Proof.
  unfold toggle_transcription, bind, get, modify, print, print_end, call.
  cbn. repeat first [rewrite append_assoc | progress cbn]. reflexivity.
Qed.

(** C1, as the code has it. A final-type event that arrives while the
    toggle is paused is handed over: the receiver adds its text to the
    buffer, appends exactly one entry of role user whose content is the
    buffer, and calls the conversation processor with that text on the log
    so extended. When the processor returns, the buffer is reset to the
    empty string; when the completion fails, the exception leaves the
    cycle before the reset, and the buffer still holds the utterance. The
    toggle itself touches neither the buffer nor the log and makes no
    request: it is the event that triggers the hand-over. *)
Theorem receive_final_while_paused
  (transcript : pyval) (text : string) (resp : completion) (st : session)
  (Hfinal : final_text transcript = Some text)
  (Hpaused : transcribing st = false) :
  let buffer := user_message st ++ text in
  let o := receive_cycle (Decoded transcript) resp st in
  o = (process_transcripts resp buffer ;; modify (set_user_message ""))
        (handed_over text st)
  /\ messages (handed_over text st) = (messages st ++ [mkMessage "user" buffer])%list
  /\ with_role "user" (messages (final o))
     = (with_role "user" (messages st) ++ [mkMessage "user" buffer])%list
  /\ requests (io (final o))
     = (requests (io st) ++ [(model st, messages st ++ [mkMessage "user" buffer])])%list
  /\ (forall st', o = Returns tt st' -> user_message st' = "")
  /\ (failure resp = None -> exists st', o = Returns tt st')
  /\ (forall e, failure resp = Some e ->
        exists st', o = Raises e st' /\ user_message st' = buffer)
  /\ (forall st0,
        messages (final (toggle_transcription st0)) = messages st0
        /\ user_message (final (toggle_transcription st0)) = user_message st0
        /\ requests (io (final (toggle_transcription st0))) = requests (io st0)).
Proof.
  intros buffer o.
  assert (E : o = (process_transcripts resp buffer ;; modify (set_user_message ""))
                    (handed_over text st)).
  { subst o buffer. rewrite (receive_cycle_final _ _ _ _ Hfinal), Hpaused. reflexivity. }
  destruct (handoff_log text resp st) as [Hlog Hreq]. fold buffer in Hlog, Hreq.
  rewrite <- E in Hlog, Hreq.
  split; [exact E |]. split; [reflexivity |].
  split; [| split; [exact Hreq | split; [| split; [| split]]]].
  - rewrite Hlog, with_role_app. f_equal.
    destruct (failure resp); reflexivity.
  - intros st' H. rewrite E in H. subst buffer. rewrite handoff_outcome in H.
    destruct (failure resp); [discriminate H |]. now injection H as <-.
  - intros H. rewrite E. subst buffer. rewrite handoff_outcome, H. eauto.
  - intros e H. rewrite E. subst buffer. rewrite handoff_outcome, H.
    eexists. split; reflexivity.
  - intros st0. rewrite toggle_transcription_eq. cbn [final].
    repeat split. simpl. now rewrite requests_app, app_nil_r.
Qed.

(** C2. Final-type events received while the toggle is active only
    accumulate: after any sequence of them the buffer is what it was
    followed by their texts in arrival order (their concatenation when it
    was empty), and neither the log nor the calls of the session have
    changed, so the conversation processor has not been invoked. *)
Theorem receive_final_while_active
  (arrivals : list (inbound * completion)) (texts : list string) (st : session)
  (Hactive : transcribing st = true)
  (Hrunning : stop_transcription st = false)
  (Hfinal : Forall2 final_arrival arrivals texts) :
  let o := receive_transcript arrivals st in
  o = Returns tt (set_user_message (user_message st ++ joined texts) st)
  /\ (user_message st = "" -> user_message (final o) = joined texts)
  /\ messages (final o) = messages st
  /\ io (final o) = io st
  /\ requests (io (final o)) = requests (io st).
Proof.
  intros o.
  assert (E : o = Returns tt (set_user_message (user_message st ++ joined texts) st)).
  { subst o. revert st Hactive Hrunning.
    induction Hfinal as [|[inp resp] text arrivals texts (transcript & Hinp & Htext) _ IH];
      intros st Hactive Hrunning.
    - simpl. rewrite append_empty_r. unfold ret, set_user_message.
      now rewrite session_eta.
    - simpl in Hinp. subst inp. cbn [receive_transcript].
      unfold bind at 1. unfold receive_turn. unfold bind at 1. unfold get at 1.
      rewrite Hrunning. unfold bind at 1.
      rewrite (receive_cycle_final _ _ _ _ Htext), Hactive. unfold ret at 1.
      rewrite IH by assumption.
      cbn [joined fold_right]. unfold set_user_message. cbn.
      now rewrite append_assoc. }
  rewrite E. cbn [final]. repeat split.
  intros H. simpl. now rewrite H.
Qed.

(** C10. The hand-over does not depend on there being any text: a
    final-type event with the empty text that arrives while the toggle is
    paused and the buffer is empty appends an entry of role user with
    empty content and calls the conversation processor with the empty
    string, the request carrying the log with that entry. *)
Theorem receive_empty_final_while_paused
  (transcript : pyval) (resp : completion) (st : session)
  (Hfinal : final_text transcript = Some "")
  (Hpaused : transcribing st = false)
  (Hempty : user_message st = "") :
  let o := receive_cycle (Decoded transcript) resp st in
  o = (process_transcripts resp "" ;; modify (set_user_message ""))
        (handed_over "" st)
  /\ messages (handed_over "" st) = (messages st ++ [mkMessage "user" ""])%list
  /\ (exists more, messages (final o) = (messages st ++ mkMessage "user" "" :: more)%list)
  /\ requests (io (final o))
     = (requests (io st) ++ [(model st, messages st ++ [mkMessage "user" ""])])%list.
Proof.
  intros o.
  assert (B : user_message st ++ "" = "") by now rewrite Hempty.
  assert (E : o = (process_transcripts resp "" ;; modify (set_user_message ""))
                    (handed_over "" st)).
  { subst o. rewrite (receive_cycle_final _ _ _ _ Hfinal), Hpaused, B. reflexivity. }
  destruct (handoff_log "" resp st) as [Hlog Hreq].
  rewrite B in Hlog, Hreq. rewrite <- E in Hlog, Hreq.
  split; [exact E |]. split; [| split; [| exact Hreq]].
  - unfold handed_over. simpl. now rewrite B.
  - eexists. exact Hlog.
Qed.


(** C7. When the request to the completion service or the stream it
    returns fails, the exception leaves [process_transcripts] and the
    receiver's cycle as it is, after a single request; the processing step
    leaves the log as it found it, so that the log of the cycle ends with
    the user entry of the utterance and has gained no assistant entry. *)
Theorem completion_failure_propagates
  (resp : completion) (e : exn) (st : session)
  (Hfail : failure resp = Some e) :
  (forall transcript,
      exists st',
        process_transcripts resp transcript st = Raises e st'
        /\ messages st' = messages st
        /\ requests (io st') = (requests (io st) ++ [(model st, messages st)])%list)
  /\ (forall transcript text,
        final_text transcript = Some text ->
        transcribing st = false ->
        exists st',
          receive_cycle (Decoded transcript) resp st = Raises e st'
          /\ messages st'
             = (messages st ++ [mkMessage "user" (user_message st ++ text)])%list
          /\ with_role "assistant" (messages st') = with_role "assistant" (messages st)
          /\ requests (io st')
             = (requests (io st)
                ++ [(model st,
                     messages st ++ [mkMessage "user" (user_message st ++ text)])])%list).
Proof.
  split.
  - intros transcript. rewrite process_transcripts_eq, Hfail.
    eexists. split; [reflexivity |]. split; [reflexivity |].
    now rewrite requests_drained, requests_started.
  - intros transcript text Hfinal Hpaused.
    rewrite (receive_cycle_final _ _ _ _ Hfinal), Hpaused.
    destruct (handoff_log text resp st) as [Hlog Hreq].
    rewrite handoff_outcome in *. rewrite Hfail in *. cbn [final] in *.
    eexists. split; [reflexivity |]. split; [exact Hlog |]. split; [| exact Hreq].
    rewrite Hlog, with_role_app. simpl. now rewrite app_nil_r.
Qed.

(** ** The log over a whole run *)

Lemma appended_role_known (m : message) : appended_role m -> known_role (role m).
Proof. unfold appended_role, known_role. tauto. Qed.

Lemma extends_log st st' :
  extends st st' ->
  exists new, messages st' = (messages st ++ new)%list
              /\ Forall (fun m => known_role (role m)) new.
Proof.
  intros [(new & E & F) _]. exists new. split; [exact E |].
  eapply Forall_impl; [|exact F]. apply appended_role_known.
Qed.

(** C6. In every session a run can reach, entry 0 of the log is the
    system entry with the prompt of the configuration. Every operation
    only appends to the log: after a key press, a turn of the sender or of
    the receiver, or any stretch of the supervisor loop, from any session
    whatever, the log is the log before followed by new entries, each of
    role system, user or assistant; and [append_message] itself adds its
    entry at the end. *)
Theorem log_append_only (cfg : configure.t) :
  (forall st, reachable cfg st ->
              nth_error (messages st) 0
              = Some (mkMessage "system" (configure.system_prompt cfg)))
  /\ (forall st o,
         exists new, messages (final (occur o st)) = (messages st ++ new)%list
                     /\ Forall (fun m => known_role (role m)) new)
  /\ (forall st auth attempts,
         exists new, messages (final (send_receive auth attempts st))
                     = (messages st ++ new)%list
                     /\ Forall (fun m => known_role (role m)) new)
  /\ (forall st resp transcript,
         exists new, messages (final (process_transcripts resp transcript st))
                     = (messages st ++ new)%list
                     /\ Forall (fun m => known_role (role m)) new)
  /\ (forall st r m,
         messages (final (append_message r m st))
         = (messages st ++ [mkMessage r m])%list).
Proof.
  split; [| split; [| split; [| split]]].
  - intros st H. apply reachable_extends, extends_log in H.
    destruct H as (new & -> & _). reflexivity.
  - intros st o. apply extends_log, respects_occur.
  - intros st auth attempts. apply extends_log, respects_send_receive.
  - intros st resp transcript. apply extends_log, respects_process_transcripts.
  - reflexivity.
Qed.

(** C9. The constructor leaves a log of exactly two entries, the system
    entry and, after it, the note of role user that the constructor
    appends, which begins with the words quoted; no request has been made
    then. In every session a run can reach, every request made to the
    completion service carried a log that starts with these two entries,
    so that the note is the first message of role user of its context. *)
Theorem constructor_note_first_user_message (cfg : configure.t) :
  messages (__init__ cfg)
  = [mkMessage "system" (configure.system_prompt cfg); mkMessage "user" NOTE]
  /\ String.prefix "Note: Remember to always be concise" NOTE = true
  /\ requests (io (__init__ cfg)) = []
  /\ (forall st, reachable cfg st ->
        Forall (fun request =>
                  (exists more,
                      snd request
                      = (mkMessage "system" (configure.system_prompt cfg)
                         :: mkMessage "user" NOTE :: more))
                  /\ find (fun m => String.eqb (role m) "user") (snd request)
                     = Some (mkMessage "user" NOTE))
               (requests (io st))).
Proof.
  split; [reflexivity |]. split; [reflexivity |]. split; [reflexivity |].
  intros st H. apply reachable_extends in H.
  destruct H as [_ (calls & I & R)]. simpl in I. rewrite I.
  eapply Forall_impl; [|exact R].
  intros [mdl context] [more E]. simpl in E. simpl snd. rewrite E.
  split; [now exists more | reflexivity].
Qed.

(** ** The supervisor: the claims *)

(** The pass of the loop in which the [try] block raises. *)
Lemma send_receive_raised auth a rest e st st1 :
  stop_transcription st = false ->
  connection auth a st = Raises e st1 ->
  send_receive auth (a :: rest) st =
  match handler e st1 with
  | Returns Next st2 => send_receive auth rest st2
  | Returns Break st2 => Returns Done st2
  | Returns Suspended st2 => Returns Waiting st2
  | Raises e' st2 => Raises e' st2
  end.
Proof.
  intros Hrunning Hraised. cbn [send_receive].
  unfold bind at 1. unfold get at 1. rewrite Hrunning.
  unfold bind at 1. unfold try_except. unfold bind at 1. rewrite Hraised.
  destruct (handler e st1) as [[| |] st2|e' st2]; reflexivity.
Qed.

(** A pass of the loop opens a connection first. *)
Lemma send_receive_connects auth a rest st :
  stop_transcription st = false ->
  exists calls,
    io (final (send_receive auth (a :: rest) st))
    = (io st ++ WsConnect WEBSOCKET_URL auth 5 20 :: calls)%list.
Proof.
  intros Hrunning.
  pose (after :=
          ctl <- try_except
                   (p <- connected a ;;
                    ret (match p with Done => Next | Waiting => Suspended end))
                   handler ;;
          match ctl with
          | Next => send_receive auth rest
          | Break => ret Done
          | Suspended => ret Waiting
          end).
  assert (E : send_receive auth (a :: rest) st
              = after (set_io (io st ++ [WsConnect WEBSOCKET_URL auth 5 20]) st)).
  { cbn [send_receive]. unfold bind at 1. unfold get at 1. rewrite Hrunning.
    reflexivity. }
  assert (R : respects after).
  { subst after. apply respects_bind.
    - apply respects_try_except; [respects_auto | apply respects_handler].
    - intros [| |]; auto using respects_send_receive with respects. }
  rewrite E. destruct (R (set_io (io st ++ [WsConnect WEBSOCKET_URL auth 5 20]) st))
    as [_ (calls & I & _)].
  exists calls. rewrite I. simpl. now rewrite <- app_assoc.
Qed.

(** C3, as the code has it. While no stop has been asked for, and the
    [try] block of a pass raises [e]:
    - a [ConnectionClosedError] whose text holds the idle marker is
      absorbed, the loop goes on with its next pass in the session the
      failure left, and that pass, unless a stop has been asked for
      meanwhile, opens a new connection;
    - a [ConnectionClosedError] without the marker is raised again: it
      leaves [send_receive] and [run], no further connection is attempted
      and the process ends abnormally;
    - any other exception that is an [Exception] is printed after
      "Unexpected error: ", the loop is left with no further connection
      attempted, and [send_receive] and [run] return normally. *)
Theorem send_receive_on_error
  (auth : string) (a : attempt) (rest : list attempt) (e : exn) (st st1 : session)
  (Hrunning : stop_transcription st = false)
  (Hraised : connection auth a st = Raises e st1) :
  (exn_cls e = ConnectionClosedError ->
   str_contains IDLE (exn_str e) = true ->
   send_receive auth (a :: rest) st = send_receive auth rest st1
   /\ (stop_transcription st1 = false ->
       forall a2 rest2, rest = a2 :: rest2 ->
       exists calls,
         io (final (send_receive auth (a :: rest) st))
         = (io st1 ++ WsConnect WEBSOCKET_URL auth 5 20 :: calls)%list))
  /\ (exn_cls e = ConnectionClosedError ->
      str_contains IDLE (exn_str e) = false ->
      send_receive auth (a :: rest) st = Raises e st1
      /\ run auth (a :: rest) st = (Abnormal e, st1))
  /\ (exn_cls e <> ConnectionClosedError ->
      is_Exception (exn_cls e) = true ->
      send_receive auth (a :: rest) st = Returns Done (logged e st1)
      /\ run auth (a :: rest) st = (Normal, logged e st1)).
Proof.
  pose proof (send_receive_raised auth a rest e st st1 Hrunning Hraised) as E.
  split; [| split].
  - intros Hcls Hidle.
    assert (E' : send_receive auth (a :: rest) st = send_receive auth rest st1).
    { rewrite E. unfold handler. now rewrite Hcls, Hidle. }
    split; [exact E' |].
    intros Hrunning1 a2 rest2 ->. rewrite E'.
    now apply send_receive_connects.
  - intros Hcls Hidle.
    assert (E' : send_receive auth (a :: rest) st = Raises e st1).
    { rewrite E. unfold handler. now rewrite Hcls, Hidle. }
    split; [exact E' |]. unfold run. now rewrite E'.
  - intros Hcls Hexc.
    assert (E' : send_receive auth (a :: rest) st = Returns Done (logged e st1)).
    { rewrite E. unfold handler.
      destruct (exn_cls e); try discriminate Hexc; try congruence; reflexivity. }
    split; [exact E' |]. unfold run. now rewrite E'.
Qed.

(** C4, as the code has it. An inbound frame that is not JSON, or a JSON
    object that lacks text or message_type or whose message_type is not
    the final variant, leaves the whole session, buffer and log included,
    as it was. An object without text, or whose message_type is there and
    is not the final variant, is ignored: the cycle returns and the loop
    goes on. A frame that is not JSON raises [JSONDecodeError]: the
    exception leaves the receiver, and the supervisor prints it after
    "Unexpected error: " and leaves its loop. *)
Theorem receive_unrecognized
  (inp : inbound) (resp : completion) (st : session)
  (H : malformed_or_unrecognized inp = true) :
  final (receive_cycle inp resp st) = st
  /\ match inp with
     | RecvRaises _ => True
     | Undecodable err =>
         receive_cycle inp resp st = Raises (mkExn JSONDecodeError err) st
         /\ handler (mkExn JSONDecodeError err) st
            = Returns Break (logged (mkExn JSONDecodeError err) st)
     | Decoded transcript =>
         lacks "text" transcript || not_final_type transcript = true ->
         receive_cycle inp resp st = Returns tt st
     end.
Proof.
  destruct inp as [e|err|transcript]; [discriminate H | |].
  - repeat split.
  - simpl in H. unfold unrecognized in H.
    destruct (lacks "text" transcript) eqn:Ht.
    + rewrite (receive_cycle_no_text _ _ _ Ht). split; [reflexivity | auto].
    + destruct (not_final_type transcript) eqn:Hn.
      * rewrite (receive_cycle_other_type _ _ _ Hn). split; [reflexivity | auto].
      * simpl in H. rewrite orb_false_r in H.
        rewrite (receive_cycle_no_type _ _ _ Ht H).
        split; [reflexivity | discriminate].
Qed.

(** ** Worked runs *)

(** The scenario of the specification: final events while active, the
    toggle, and the event that arrives while paused. When [Esc] is pressed
    the receiver is waiting in [recv]: the sender leaves its loop at its
    next turn, and the receiver still hands over the frame that arrives
    before it tests the flag and leaves. *)
Example scenario_hello_there :
  let '(ending, st) :=
    main configure.shipped
         [mkAttempt None
            [Pressed Space;
             ReceiverTurn (Decoded (final_event "Hello ")) answer;
             SenderTurn (Frame (list_byte_of_string "Ma")) None;
             ReceiverTurn (Decoded (final_event "there")) answer;
             Pressed Space;
             ReceiverTurn (Decoded (final_event ".")) answer;
             Pressed Esc;
             SenderTurn (Frame []) None;
             ReceiverTurn (Decoded (final_event "late")) answer]] in
  ending = Normal
  /\ messages st = [mkMessage "system" ""; mkMessage "user" NOTE;
                    mkMessage "user" "Hello there.";
                    mkMessage "assistant" "Hi back";
                    mkMessage "user" "late";
                    mkMessage "assistant" "Hi back"]
  /\ user_message st = ""
  /\ audio_calls (io st)
     = [StreamRead FRAMES_PER_BUFFER;
        WsSend ("{" ++ DQUOTE ++ "audio_data" ++ DQUOTE ++ ": " ++ DQUOTE ++ "TWE="
                    ++ DQUOTE ++ "}")].
Proof. vm_compute. repeat split. Qed.

(** A reconnection with the toggle active. The first connection is closed
    for idleness under the receiver; the supervisor absorbs the error and
    connects again, and the sender of the first connection, which nobody
    cancelled, takes one more turn: it reads a frame and sends it on its
    closed socket, where the exception stays. *)
Example leftover_sender_takes_a_frame :
  let o :=
    send_receive ""
      [mkAttempt None
         [SenderTurn (Frame (list_byte_of_string "Ma")) None;
          ReceiverTurn (RecvRaises idle_closed) answer];
       mkAttempt None
         [LeftoverSenderTurn (Frame (list_byte_of_string "n")) (Some idle_closed);
          SenderTurn (Frame (list_byte_of_string "Ma")) None]] active0 in
  o = Returns Waiting (final o)
  /\ io (final o)
     = [WsConnect WEBSOCKET_URL "" 5 20;
        StreamRead FRAMES_PER_BUFFER;
        WsSend (json.dumps [("audio_data", "TWE=")]);
        WsConnect WEBSOCKET_URL "" 5 20;
        StreamRead FRAMES_PER_BUFFER;
        WsSend (json.dumps [("audio_data", "bg==")]);
        StreamRead FRAMES_PER_BUFFER;
        WsSend (json.dumps [("audio_data", "TWE=")])].
Proof. split; reflexivity. Qed.

(** ** The claims at concrete inputs *)

Lemma receive_final_while_paused_witness :
  final_text (final_event "Hello there.") = Some "Hello there."
  /\ transcribing paused0 = false
  /\ with_role "user"
       (messages (final (receive_cycle (Decoded (final_event "Hello there."))
                                       answer paused0)))
     = [mkMessage "user" NOTE; mkMessage "user" "Hello there."].
Proof.
  split; [reflexivity |]. split; [reflexivity |].
  exact (proj1 (proj2 (proj2
           (receive_final_while_paused (final_event "Hello there.") "Hello there."
              answer paused0 eq_refl eq_refl)))).
Defined.

Lemma receive_final_while_active_witness :
  user_message
    (final (receive_transcript
              [(Decoded (final_event "Hello "), answer);
               (Decoded (final_event "there"), answer);
               (Decoded (final_event "."), answer)] active0))
  = "Hello there.".
Proof.
  refine (proj1 (proj2
            (receive_final_while_active _ ["Hello "; "there"; "."] active0
               eq_refl eq_refl _)) eq_refl).
  repeat constructor; eexists; split; reflexivity.
Defined.

Lemma receive_empty_final_while_paused_witness :
  requests (io (final (receive_cycle (Decoded (final_event "")) answer paused0)))
  = [("", [mkMessage "system" ""; mkMessage "user" NOTE; mkMessage "user" ""])].
Proof.
  exact (proj2 (proj2 (proj2
           (receive_empty_final_while_paused (final_event "") answer paused0
              eq_refl eq_refl eq_refl)))).
Defined.


Lemma completion_failure_propagates_witness :
  exists st',
    receive_cycle (Decoded (final_event "Hello there.")) broken_answer paused0
    = Raises (mkExn CompletionError "Connection error.") st'
    /\ messages st' = [mkMessage "system" ""; mkMessage "user" NOTE;
                       mkMessage "user" "Hello there."].
Proof.
  destruct (proj2 (completion_failure_propagates broken_answer
                     (mkExn CompletionError "Connection error.") paused0 eq_refl)
              (final_event "Hello there.") "Hello there." eq_refl eq_refl)
    as (st' & E & Hlog & _).
  exists st'. split; [exact E | exact Hlog].
Defined.

Lemma send_receive_on_error_witness :
  run "" [closing unauthorized_closed; closing idle_closed] paused0
  = (Abnormal unauthorized_closed,
     final (connection "" (closing unauthorized_closed) paused0))
  /\ send_receive "" [closing idle_closed; closing unauthorized_closed] paused0
     = send_receive "" [closing unauthorized_closed]
                    (final (connection "" (closing idle_closed) paused0)).
Proof.
  split.
  - exact (proj2 (proj1 (proj2
             (send_receive_on_error "" (closing unauthorized_closed)
                [closing idle_closed] unauthorized_closed paused0 _
                eq_refl eq_refl))
             eq_refl eq_refl)).
  - exact (proj1 (proj1
             (send_receive_on_error "" (closing idle_closed)
                [closing unauthorized_closed] idle_closed paused0 _
                eq_refl eq_refl)
             eq_refl eq_refl)).
Defined.

Lemma receive_unrecognized_witness :
  final (receive_cycle (Decoded (partial_event "Hel")) answer active0) = active0
  /\ final (receive_cycle (Undecodable not_json) answer active0) = active0.
Proof.
  split.
  - exact (proj1 (receive_unrecognized (Decoded (partial_event "Hel")) answer
                    active0 eq_refl)).
  - exact (proj1 (receive_unrecognized (Undecodable not_json) answer
                    active0 eq_refl)).
Defined.

(** ** Where the code departs from the specification *)

(** C3 as stated fails: the rejection of the handshake, and the closing
    of the connection with code 1000, are connection errors other than the
    idle disconnect, and after either [send_receive] returns and the run
    ends normally, the exception printed and not raised. *)
Lemma other_connection_error_ends_normally :
  (connection_error (exn_cls handshake_rejected) = true
   /\ idle_disconnect handshake_rejected = false
   /\ main configure.shipped [mkAttempt (Some handshake_rejected) []; closing idle_closed]
      = (Normal,
         set_io [WsConnect WEBSOCKET_URL "" 5 20;
                 Stdout ("Unexpected error: " ++ exn_str handshake_rejected ++ LF)]
                paused0))
  /\ (connection_error (exn_cls closed_ok) = true
      /\ idle_disconnect closed_ok = false
      /\ fst (main configure.shipped [closing closed_ok; closing idle_closed]) = Normal).
Proof. repeat split. Qed.

(** C1 as stated fails: the reset of the buffer is not reached when the
    completion fails. The session is paused with "Hello " in its buffer;
    the final event arrives, the user entry is appended and the request
    made, the completion service fails, and the exception leaves the cycle
    with the whole utterance still in the buffer. *)
Lemma failed_completion_skips_reset :
  transcribing holding = false
  /\ user_message holding = "Hello "
  /\ final_text (final_event "there.") = Some "there."
  /\ receive_cycle (Decoded (final_event "there.")) broken_answer holding
     = Raises (mkExn CompletionError "Connection error.")
         (final (receive_cycle (Decoded (final_event "there.")) broken_answer holding))
  /\ with_role "user"
       (messages (final (receive_cycle (Decoded (final_event "there."))
                                       broken_answer holding)))
     = [mkMessage "user" NOTE; mkMessage "user" "Hello there."]
  /\ user_message (final (receive_cycle (Decoded (final_event "there."))
                                        broken_answer holding))
     = "Hello there."
  /\ "Hello there." <> "".
Proof. repeat split. discriminate. Qed.

(** C4 as stated fails: a frame that is not JSON is not ignored. The
    cycle raises, the frames that follow are never read, and the
    supervisor, far from waiting for the next frame, leaves its loop. *)
Lemma undecodable_frame_not_ignored :
  malformed_or_unrecognized (Undecodable not_json) = true
  /\ ~ ignored (Undecodable not_json)
  /\ receive_transcript [(Undecodable not_json, answer);
                         (Decoded (final_event "Hello"), answer)] active0
     = Raises (mkExn JSONDecodeError not_json) active0
  /\ fst (main configure.shipped
               [mkAttempt None [ReceiverTurn (Undecodable not_json) answer;
                                ReceiverTurn (Decoded (final_event "Hello")) answer];
                mkAttempt None []]) = Normal
  /\ fst (main configure.shipped
               [mkAttempt None [ReceiverTurn (Decoded (partial_event "Hel")) answer;
                                ReceiverTurn (Decoded (final_event "Hello")) answer];
                mkAttempt None []]) = Running.
Proof.
  split; [reflexivity |]. split.
  - intros H. specialize (H answer active0). discriminate H.
  - repeat split.
Qed.

(** An object with text and no message_type: the subscript raises. *)
Example text_without_message_type :
  receive_cycle (Decoded (PyDict [("text", PyStr "Hello")])) answer active0
  = Raises (mkExn KeyError "'message_type'") active0.
Proof. reflexivity. Qed.

(** * Further properties of the code *)

(** ** The receiver on every other frame *)

Lemma receive_cycle_other_frame
  (inp : inbound) (resp : completion) (st : session)
  (H : inbound_final_text inp = None) :
  final (receive_cycle inp resp st) = st.
Proof.
  destruct inp as [e|err|transcript]; [reflexivity | reflexivity |].
  simpl in H.
  destruct transcript as [| ? | ? | ? | s | items | items];
    try reflexivity;
    unfold receive_cycle, recv_loads, py_contains, py_getitem, bind, ret, raise.
  - now destruct (str_contains "text" s).
  - now destruct (existsb (fun v => py_eq_str v "text") items).
  - unfold final_text in H.
    destruct (dict_get items "text") as [text|] eqn:Ht; [|reflexivity].
    destruct (dict_get items "message_type") as [mt|] eqn:Hm; [|reflexivity].
    destruct (py_eq_str mt "FinalTranscript") eqn:Hf; [|reflexivity].
    destruct text; try discriminate H; reflexivity.
Qed.

(** X1. Whatever arrives that is not a final-type event with a string for
    text, the exception of [recv], a frame that is not JSON, JSON of any
    other shape, leaves the whole session as it was, whether the cycle
    returns or raises; and so does [receive_transcript] over any sequence
    of such frames, which it reads up to the first that makes the cycle
    raise. *)
Theorem receive_cycle_untouched
  (arrivals : list (inbound * completion)) (st : session)
  (H : Forall (fun a => inbound_final_text (fst a) = None) arrivals) :
  (forall a resp, In a arrivals -> final (receive_cycle (fst a) resp st) = st)
  /\ final (receive_transcript arrivals st) = st.
Proof.
  split.
  - intros a resp Hin. rewrite Forall_forall in H.
    apply receive_cycle_other_frame. now apply H.
  - induction H as [|[inp resp] rest Hinp _ IH]; [reflexivity |].
    simpl in Hinp. cbn [receive_transcript].
    unfold bind at 1. unfold receive_turn, bind, get.
    destruct (stop_transcription st); [reflexivity |].
    pose proof (receive_cycle_other_frame inp resp st Hinp) as E.
    destruct (receive_cycle inp resp st) as [[] st'|e st']; cbn [final] in E; subst st'.
    + unfold ret. exact IH.
    + reflexivity.
Qed.

Lemma receive_cycle_untouched_witness :
  final (receive_transcript
           [(Decoded (partial_event "Hel"), answer);
            (Decoded (PyList [PyStr "text"; PyInt 1]), answer);
            (Decoded (final_event "never read"), answer)] paused0)
  = final (receive_transcript
             [(Decoded (partial_event "Hel"), answer);
              (Decoded (PyList [PyStr "text"; PyInt 1]), answer)] paused0)
  /\ final (receive_transcript
              [(Decoded (partial_event "Hel"), answer);
               (Decoded (PyList [PyStr "text"; PyInt 1]), answer)] paused0)
     = paused0.
Proof.
  split; [reflexivity |].
  refine (proj2 (receive_cycle_untouched
                   [(Decoded (partial_event "Hel"), answer);
                    (Decoded (PyList [PyStr "text"; PyInt 1]), answer)] paused0 _)).
  repeat constructor.
Defined.

Lemma existsb_text (items : list pyval) :
  existsb (fun v => py_eq_str v "text") items = true <-> In (PyStr "text") items.
Proof.
  rewrite existsb_exists. split.
  - intros (v & Hin & Hv). destruct v; try discriminate Hv.
    simpl in Hv. apply String.eqb_eq in Hv. now subst.
  - intros Hin. exists (PyStr "text"). split; [exact Hin | reflexivity].
Qed.

(** X2. JSON that is not an object. A number, a boolean or null is not a
    container, and the membership test raises [TypeError]; a list with the
    element "text", or a string in which text occurs, passes the test and
    the subscript then raises [TypeError]; any other list or string is
    ignored. A final-type object whose text is not a string raises
    [TypeError] at the concatenation. None of them changes the session. *)
Theorem receive_cycle_type_errors
  (transcript : pyval) (resp : completion) (st : session) :
  let o := receive_cycle (Decoded transcript) resp st in
  (scalar transcript = true ->
   exists msg, o = Raises (mkExn TypeError msg) st)
  /\ (forall items, transcript = PyList items ->
        (In (PyStr "text") items -> exists msg, o = Raises (mkExn TypeError msg) st)
        /\ (~ In (PyStr "text") items -> o = Returns tt st))
  /\ (forall s, transcript = PyStr s ->
        (str_contains "text" s = true -> exists msg, o = Raises (mkExn TypeError msg) st)
        /\ (str_contains "text" s = false -> o = Returns tt st))
  /\ (forall items text,
        transcript = PyDict items ->
        dict_get items "message_type" = Some (PyStr "FinalTranscript") ->
        dict_get items "text" = Some text ->
        is_str text = false ->
        exists msg, o = Raises (mkExn TypeError msg) st).
Proof.
  intros o. subst o. split; [| split; [| split]].
  - destruct transcript; try discriminate; intros _; eexists; reflexivity.
  - intros items ->. split.
    + intros Hin. apply existsb_text in Hin.
      unfold receive_cycle, recv_loads, py_contains, py_getitem, bind, ret, raise.
      rewrite Hin. eexists; reflexivity.
    + intros Hin.
      assert (E : existsb (fun v => py_eq_str v "text") items = false).
      { destruct (existsb _ items) eqn:E; [|reflexivity].
        now apply existsb_text in E. }
      unfold receive_cycle, recv_loads, py_contains, bind, ret. now rewrite E.
  - intros s ->. split; intros Hs;
      unfold receive_cycle, recv_loads, py_contains, py_getitem, bind, ret, raise;
      rewrite Hs; [eexists |]; reflexivity.
  - intros items text -> Hm Ht Hs.
    unfold receive_cycle, recv_loads, py_contains, py_getitem, str_add,
      bind, ret, raise, get.
    rewrite Ht, Hm. simpl py_eq_str. cbn match.
    destruct text; try discriminate Hs; eexists; reflexivity.
Qed.


(** ** The two tasks and the flags *)

Lemma send_cycle_eq (r : audio_read) (closed : option exn) (st : session) :
  send_cycle r closed st =
  if transcribing st then
    match r with
    | ReadRaises e => Raises e (set_io (io st ++ [StreamRead FRAMES_PER_BUFFER]) st)
    | Frame data =>
        let st' := set_io (io st ++ [StreamRead FRAMES_PER_BUFFER;
                                     WsSend (json.dumps [("audio_data",
                                                          base64.b64encode data)])]) st in
        match closed with
        | Some e => Raises e st'
        | None => Returns tt st'
        end
    end
  else Returns tt st.
Proof.
  unfold send_cycle, bind, get. destruct (transcribing st); [|reflexivity].
  unfold stream_read, websocket_send, bind, call, modify, ret, raise.
  destruct r as [data|e]; [|reflexivity].
  destruct closed; unfold set_io; simpl; now rewrite <- app_assoc.
Qed.

(** A cycle of the receiver leaves the five settings alone. *)
Lemma receive_cycle_settings (inp : inbound) (resp : completion) (st : session) :
  same_settings st (final (receive_cycle inp resp st)).
Proof.
  destruct (inbound_final_text inp) as [text|] eqn:Hf.
  - destruct inp as [e|err|transcript]; try discriminate Hf. simpl in Hf.
    rewrite (receive_cycle_final _ _ _ _ Hf).
    destruct (transcribing st) eqn:Ht.
    + simpl. unfold same_settings; simpl. auto.
    + rewrite handoff_outcome.
      destruct (failure resp); simpl; unfold same_settings; simpl; auto.
  - rewrite (receive_cycle_other_frame _ _ _ Hf). unfold same_settings; auto.
Qed.

(** X3. Neither task ever changes the toggle, the stop flag, the model or the
    two names: a turn of the sender leaves everything but the calls of the
    session as it was, and a turn of the receiver, whatever arrives and
    however the completion service answers, leaves these five fields as
    they were, whether the flag is tested before the frame or after it.
    Only the keyboard and the constructor set them. *)
Theorem tasks_keep_settings (st : session) :
  (forall r closed,
      let st' := final (send_turn r closed st) in
      same_settings st st'
      /\ messages st' = messages st
      /\ user_message st' = user_message st
      /\ assistant_message st' = assistant_message st
      /\ requests (io st') = requests (io st))
  /\ (forall inp resp, same_settings st (final (receive_turn inp resp st)))
  /\ (forall inp resp, same_settings st (final (receive_next inp resp st))).
Proof.
  split; [| split].
  - intros r closed. unfold send_turn, bind, get.
    destruct (stop_transcription st) eqn:Hs; [simpl; unfold same_settings; auto 10 |].
    rewrite send_cycle_eq.
    destruct (transcribing st) eqn:Ht; [| simpl; unfold same_settings; auto 10].
    destruct r as [data|e]; [destruct closed |];
      simpl; unfold same_settings; simpl;
      rewrite ?requests_app; simpl; rewrite ?app_nil_r; auto 10.
  - intros inp resp. unfold receive_turn, bind, get.
    destruct (stop_transcription st) eqn:Hs; [simpl; unfold same_settings; auto |].
    pose proof (receive_cycle_settings inp resp st) as E.
    destruct (receive_cycle inp resp st); exact E.
  - intros inp resp. unfold receive_next, bind, get.
    pose proof (receive_cycle_settings inp resp st) as E.
    destruct (receive_cycle inp resp st); exact E.
Qed.

(** ** The keyboard *)

(** X4. Whatever keys are pressed, the listener never raises and touches
    neither the buffer, the accumulator, the log nor the completion
    service. When it stops, the toggle has changed if and only if the
    space bar was pressed an odd number of times before the first [Esc],
    keys after which are not heard, and the stop flag is set if and only
    if it was set already or [Esc] was pressed. *)
Theorem listener_toggles_by_parity (keys : list key) (st : session) :
  exists st',
    listener keys st = Returns tt st'
    /\ transcribing st' = xorb (transcribing st) (odd_spaces keys)
    /\ stop_transcription st' = stop_transcription st || existsb is_esc keys
    /\ messages st' = messages st
    /\ user_message st' = user_message st
    /\ assistant_message st' = assistant_message st
    /\ requests (io st') = requests (io st).
Proof.
  revert st. induction keys as [|k rest IH]; intros st.
  - exists st. simpl. rewrite xorb_false_r, orb_false_r. auto 10.
  - cbn [listener]. unfold bind at 1. destruct k.
    + unfold on_key_press, bind at 1. rewrite toggle_transcription_eq. unfold ret at 1.
      match goal with |- context [listener rest ?s] => destruct (IH s) as (st' & E & Ht & Hs & Hm & Hu & Ha & Hr) end.
      exists st'. split; [exact E |].
      rewrite Ht, Hs, Hm, Hu, Ha, Hr.
      cbn [transcribing stop_transcription messages user_message
           assistant_message io set_io set_transcribing odd_spaces existsb is_esc orb].
      rewrite requests_app. cbn [requests]. rewrite app_nil_r.
      repeat split. destruct (transcribing st), (odd_spaces rest); reflexivity.
    + eexists. split; [reflexivity |].
      cbv beta.
      cbn [transcribing stop_transcription messages user_message
           assistant_message io set_io set_stop_transcription
           odd_spaces existsb is_esc orb].
      rewrite xorb_false_r, orb_true_r, requests_app. cbn [requests].
      rewrite app_nil_r. auto 10.
    + unfold on_key_press, ret at 1. apply IH.
Qed.

(** ** After the stop *)









(** ** What holds from one end of a run to the other *)

(** A relation between sessions that the keyboard, a cycle of either task
    and a call other than a request keep, and that composes, holds between
    the session before and the session after any stretch of the supervisor
    loop, and between the session of the constructor and every session a
    run can reach. *)
Section Supervised.

Variable R : session -> session -> Prop.
Hypothesis R_refl : forall st, R st st.
Hypothesis R_trans : forall a b c, R a b -> R b c -> R a c.
Hypothesis R_call : forall c st, requests [c] = [] -> R st (set_io (io st ++ [c]) st).
Hypothesis R_key : forall k st, R st (final (on_key_press k st)).
Hypothesis R_send : forall r closed st, R st (final (send_cycle r closed st)).
Hypothesis R_receive : forall inp resp st, R st (final (receive_cycle inp resp st)).

Definition keeps {A} (m : M A) : Prop := forall st, R st (final (m st)).

Lemma keeps_ret {A} (a : A) : keeps (ret a).
Proof. intros st. apply R_refl. Qed.

Lemma keeps_raise {A} (e : exn) : keeps (@raise A e).
Proof. intros st. apply R_refl. Qed.

Lemma keeps_get {A} (field : session -> A) : keeps (get field).
Proof. intros st. apply R_refl. Qed.

Lemma keeps_bind {A B} (m : M A) (k : A -> M B) :
  keeps m -> (forall a, keeps (k a)) -> keeps (bind m k).
Proof.
  intros Hm Hk st. unfold bind. specialize (Hm st).
  destruct (m st) as [a st'|e st']; simpl in Hm; [|exact Hm].
  eapply R_trans; [exact Hm | apply Hk].
Qed.

Lemma keeps_call c : requests [c] = [] -> keeps (call c).
Proof. intros H st. now apply R_call. Qed.

Lemma keeps_print text : keeps (print text).
Proof. apply keeps_call. reflexivity. Qed.

Lemma keeps_try_except {A} (body : M A) (except : exn -> M A) :
  keeps body -> (forall e, keeps (except e)) -> keeps (try_except body except).
Proof.
  intros Hb He st. unfold try_except. specialize (Hb st).
  destruct (body st) as [a st'|e st']; simpl in Hb; [exact Hb |].
  eapply R_trans; [exact Hb | apply He].
Qed.

Lemma keeps_on_key_press k : keeps (on_key_press k).
Proof. intros st. apply R_key. Qed.

Lemma keeps_send_turn r closed : keeps (send_turn r closed).
Proof.
  unfold send_turn. apply keeps_bind; [apply keeps_get |].
  intros [|]; [apply keeps_ret |].
  apply keeps_bind; [intros st; apply R_send | intros _; apply keeps_ret].
Qed.

Lemma keeps_receive_turn inp resp : keeps (receive_turn inp resp).
Proof.
  unfold receive_turn. apply keeps_bind; [apply keeps_get |].
  intros [|]; [apply keeps_ret |].
  apply keeps_bind; [intros st; apply R_receive | intros _; apply keeps_ret].
Qed.

Lemma keeps_receive_next inp resp : keeps (receive_next inp resp).
Proof.
  unfold receive_next. apply keeps_bind; [intros st; apply R_receive |].
  intros _. apply keeps_bind; [apply keeps_get | intros stop; apply keeps_ret].
Qed.

Lemma keeps_unretrieved {A} (m : M A) : keeps m -> keeps (unretrieved m).
Proof. intros H st. exact (H st). Qed.

Lemma keeps_occur o : keeps (occur o).
Proof.
  destruct o; simpl.
  - apply keeps_bind; [apply keeps_on_key_press | intros _; apply keeps_ret].
  - apply keeps_bind; [apply keeps_send_turn | intros _; apply keeps_ret].
  - apply keeps_bind; [apply keeps_receive_next | intros _; apply keeps_ret].
  - apply keeps_unretrieved, keeps_send_turn.
  - apply keeps_unretrieved. intros st. apply R_receive.
Qed.

Lemma keeps_gather sched sending receiving : keeps (gather sched sending receiving).
Proof.
  revert sending receiving.
  induction sched as [|o rest IH]; intros sending receiving; cbn [gather];
    destruct (negb sending && negb receiving); try apply keeps_ret.
  destruct o as [k|r closed|inp resp|r closed|inp resp].
  - apply keeps_bind; [apply keeps_get |]. intros stop.
    apply keeps_bind; [| intros _; apply IH].
    destruct stop; [apply keeps_ret |].
    apply keeps_bind; [apply keeps_on_key_press | intros _; apply keeps_ret].
  - destruct sending; [| apply IH].
    apply keeps_bind; [apply keeps_send_turn | intros go_on; apply IH].
  - destruct receiving; [| apply IH].
    apply keeps_bind; [apply keeps_receive_next | intros go_on; apply IH].
  - apply keeps_bind; [| intros _; apply IH].
    apply keeps_unretrieved, keeps_send_turn.
  - apply keeps_bind; [| intros _; apply IH].
    apply keeps_unretrieved. intros st. apply R_receive.
Qed.

Lemma keeps_connected a : keeps (connected a).
Proof.
  unfold connected. destruct (refused a); [apply keeps_raise |].
  apply keeps_bind; [apply keeps_get |]. intros active.
  apply keeps_bind; [destruct (negb active); [apply keeps_print | apply keeps_ret] |].
  intros _. apply keeps_bind; [apply keeps_get |]. intros stop. apply keeps_gather.
Qed.

Lemma keeps_connection auth a : keeps (connection auth a).
Proof.
  unfold connection. apply keeps_bind; [now apply keeps_call |].
  intros _. apply keeps_connected.
Qed.

Lemma keeps_handler e : keeps (handler e).
Proof.
  unfold handler.
  destruct (exn_cls e);
    repeat match goal with
           | |- keeps (if ?b then _ else _) => destruct b
           | |- keeps (bind _ _) => apply keeps_bind; [| intros _]
           | |- keeps (print _) => apply keeps_print
           | |- keeps (ret _) => apply keeps_ret
           | |- keeps (raise _) => apply keeps_raise
           end.
Qed.

Lemma keeps_send_receive auth attempts : keeps (send_receive auth attempts).
Proof.
  induction attempts as [|a rest IH]; cbn [send_receive];
    (apply keeps_bind; [apply keeps_get |]); intros [|]; try apply keeps_ret.
  apply keeps_bind.
  - apply keeps_try_except; [| apply keeps_handler].
    apply keeps_bind; [apply keeps_connection | intros p; apply keeps_ret].
  - intros [| |]; [exact IH | apply keeps_ret | apply keeps_ret].
Qed.

Lemma reachable_keeps cfg st : reachable cfg st -> R (__init__ cfg) st.
Proof.
  induction 1 as [|st o _ IH|st attempts _ IH].
  - apply R_refl.
  - eapply R_trans; [exact IH | apply keeps_occur].
  - eapply R_trans; [exact IH | apply keeps_send_receive].
Qed.

End Supervised.

(** ** Utterances, requests and replies *)

Lemma steady_refl st : steady st st.
Proof.
  split; [reflexivity |]. exists []. rewrite app_nil_r. simpl.
  repeat split; auto; lia.
Qed.

Lemma steady_trans a b c : steady a b -> steady b c -> steady a c.
Proof.
  intros (M1 & n1 & Q1 & F1 & U1 & L1 & A1) (M2 & n2 & Q2 & F2 & U2 & L2 & A2).
  split; [congruence |].
  exists (n1 ++ n2)%list. rewrite length_app. repeat split.
  - now rewrite Q2, Q1, app_assoc.
  - apply Forall_app; split; [exact F1 |]. now rewrite <- M1.
  - lia.
  - lia.
  - lia.
Qed.

Lemma steady_quiet st st' :
  model st' = model st ->
  messages st' = messages st ->
  requests (io st') = requests (io st) ->
  steady st st'.
Proof.
  intros Hm Hl Hr. split; [exact Hm |]. exists [].
  rewrite Hr, Hl, app_nil_r. simpl. repeat split; auto; lia.
Qed.

Lemma steady_call c st : requests [c] = [] -> steady st (set_io (io st ++ [c]) st).
Proof.
  intros H. apply steady_quiet; try reflexivity.
  simpl. now rewrite requests_app, H, app_nil_r.
Qed.

Lemma steady_key k st : steady st (final (on_key_press k st)).
Proof.
  destruct k.
  - unfold on_key_press, bind. rewrite toggle_transcription_eq.
    apply steady_quiet; try reflexivity.
    simpl. now rewrite requests_app, app_nil_r.
  - apply steady_quiet; try reflexivity.
    simpl. now rewrite requests_app, app_nil_r.
  - apply steady_refl.
Qed.

Lemma steady_send r closed st : steady st (final (send_cycle r closed st)).
Proof.
  rewrite send_cycle_eq.
  destruct (transcribing st); [| apply steady_refl].
  destruct r as [data|e]; [destruct closed |];
    apply steady_quiet; try reflexivity;
    simpl; now rewrite requests_app, app_nil_r.
Qed.

Lemma steady_receive inp resp st : steady st (final (receive_cycle inp resp st)).
Proof.
  destruct (inbound_final_text inp) as [text|] eqn:Hf.
  - destruct inp as [e|err|transcript]; try discriminate Hf. simpl in Hf.
    rewrite (receive_cycle_final _ _ _ _ Hf).
    destruct (transcribing st) eqn:Ht; [apply steady_quiet; reflexivity |].
    destruct (handoff_log text resp st) as [Hlog Hreq].
    split.
    + rewrite handoff_outcome. destruct (failure resp); reflexivity.
    + eexists. split; [exact Hreq |]. rewrite Hlog.
      rewrite !with_role_app, !length_app.
      repeat split.
      * constructor; [| constructor]. split; [reflexivity |].
        eexists. eexists. reflexivity.
      * destruct (failure resp); simpl; lia.
      * lia.
      * destruct (failure resp); simpl; lia.
  - rewrite (receive_cycle_other_frame _ _ _ Hf). apply steady_refl.
Qed.

Lemma reachable_steady cfg st : reachable cfg st -> steady (__init__ cfg) st.
Proof.
  apply (reachable_keeps steady steady_refl steady_trans steady_call
           steady_key steady_send steady_receive).
Qed.

(** X6. In every session a run can reach, every request made names the model
    of the configuration and carries a log that ends with a user entry;
    the log holds one user entry for each request made, besides the note
    of the constructor, so that no utterance is requested twice and none
    is requested without being logged; and it holds at most one assistant
    entry for each request. *)
Theorem one_request_per_utterance (cfg : configure.t) (st : session)
  (H : reachable cfg st) :
  Forall (hands_over (configure.ai_model cfg)) (requests (io st))
  /\ (List.length (with_role "user" (messages st))
      = 1 + List.length (requests (io st)))%nat
  /\ (List.length (with_role "assistant" (messages st))
      <= List.length (requests (io st)))%nat.
Proof.
  apply reachable_steady in H.
  destruct H as (_ & new & Q & F & U & _ & A).
  simpl in Q. rewrite Q. repeat split; [exact F | exact U | exact A].
Qed.

Lemma one_request_per_utterance_witness :
  (List.length (with_role "user"
     (messages (final (occur (ReceiverTurn (Decoded (final_event "Hello")) broken_answer)
                             paused0))))
   = 1 + List.length (requests
     (io (final (occur (ReceiverTurn (Decoded (final_event "Hello")) broken_answer)
                       paused0)))))%nat.
Proof.
  exact (proj1 (proj2
           (one_request_per_utterance configure.shipped _
              (reachable_occur _ _ (ReceiverTurn (Decoded (final_event "Hello"))
                                                 broken_answer)
                 (reachable_init _))))).
Defined.


(** ** Cancellation and interruption *)

(** X7. While no stop has been asked for, an [asyncio.CancelledError] raised
    in the [try] block ends the loop quietly: nothing is printed, no
    connection is attempted again and the run ends normally. An exception
    that is neither an [Exception] nor the cancellation, such as
    [KeyboardInterrupt], is caught by no clause: it leaves [send_receive]
    and the run ends abnormally. *)
Theorem send_receive_on_cancel
  (auth : string) (a : attempt) (rest : list attempt) (e : exn) (st st1 : session)
  (Hrunning : stop_transcription st = false)
  (Hraised : connection auth a st = Raises e st1) :
  (exn_cls e = CancelledError ->
   send_receive auth (a :: rest) st = Returns Done st1
   /\ run auth (a :: rest) st = (Normal, st1))
  /\ (is_Exception (exn_cls e) = false ->
      exn_cls e <> CancelledError ->
      send_receive auth (a :: rest) st = Raises e st1
      /\ run auth (a :: rest) st = (Abnormal e, st1)).
Proof.
  pose proof (send_receive_raised auth a rest e st st1 Hrunning Hraised) as E.
  split.
  - intros Hc.
    assert (E' : send_receive auth (a :: rest) st = Returns Done st1).
    { rewrite E. unfold handler. now rewrite Hc. }
    split; [exact E' |]. unfold run. now rewrite E'.
  - intros Hx Hc.
    assert (E' : send_receive auth (a :: rest) st = Raises e st1).
    { rewrite E. unfold handler.
      destruct (exn_cls e); try discriminate Hx; try congruence; reflexivity. }
    split; [exact E' |]. unfold run. now rewrite E'.
Qed.

Lemma send_receive_on_cancel_witness :
  run "" [closing (mkExn CancelledError ""); closing idle_closed] paused0
  = (Normal, final (connection "" (closing (mkExn CancelledError "")) paused0)).
Proof.
  exact (proj2 (proj1
           (send_receive_on_cancel "" (closing (mkExn CancelledError ""))
              [closing idle_closed] (mkExn CancelledError "") paused0 _
              eq_refl eq_refl)
           eq_refl)).
Defined.

(** ** What a failed completion leaves behind *)

(** X8. [process_transcripts] starts from the accumulator as it finds it and
    resets it only when the stream ends: the assistant entry of a call
    that returns is the accumulator at entry followed by the increments;
    a call that raises leaves in the accumulator what it had followed by
    the increments received, which were written out, and the receiver's
    cycle that made the call leaves the utterance in the buffer. So, from
    an empty accumulator, a call that fails followed by a call that
    returns appends an assistant entry that starts with the increments of
    the failed stream. *)
Theorem failed_completion_leaves_partial_state
  (resp : completion) (e : exn) (st : session)
  (Hfail : failure resp = Some e) :
  (forall transcript,
      exists st1,
        process_transcripts resp transcript st = Raises e st1
        /\ assistant_message st1 = assistant_message st ++ spoken (increments resp)
        /\ user_message st1 = user_message st
        /\ forall resp2 transcript2,
             failure resp2 = None ->
             exists st2,
               process_transcripts resp2 transcript2 st1 = Returns tt st2
               /\ messages st2
                  = (messages st
                     ++ [mkMessage "assistant"
                           (assistant_message st ++ spoken (increments resp)
                            ++ spoken (increments resp2))])%list
               /\ assistant_message st2 = "")
  /\ (forall transcript text,
        final_text transcript = Some text ->
        transcribing st = false ->
        exists st1,
          receive_cycle (Decoded transcript) resp st = Raises e st1
          /\ user_message st1 = user_message st ++ text
          /\ assistant_message st1 = assistant_message st ++ spoken (increments resp)).
Proof.
  split.
  - intros transcript. rewrite process_transcripts_eq, Hfail.
    eexists. split; [reflexivity |]. split; [reflexivity |]. split; [reflexivity |].
    intros resp2 transcript2 Hend. rewrite process_transcripts_eq, Hend.
    eexists. split; [reflexivity |]. split; [| reflexivity].
    unfold finished, drained, started; simpl. now rewrite append_assoc.
  - intros transcript text Hfinal Hpaused.
    rewrite (receive_cycle_final _ _ _ _ Hfinal), Hpaused, handoff_outcome, Hfail.
    eexists. split; [reflexivity |]. split; reflexivity.
Qed.

Lemma failed_completion_leaves_partial_state_witness :
  exists st1,
    receive_cycle (Decoded (final_event "Hello there.")) broken_answer paused0
    = Raises (mkExn CompletionError "Connection error.") st1
    /\ user_message st1 = "Hello there."
    /\ assistant_message st1 = "Hi".
Proof.
  exact (proj2 (failed_completion_leaves_partial_state broken_answer
                  (mkExn CompletionError "Connection error.") paused0 eq_refl)
           (final_event "Hello there.") "Hello there." eq_refl eq_refl).
Defined.

(** ** The buffer across a reconnection *)

(** A turn of the sender changes the calls of the session only, and
    opens no connection. *)
Lemma send_turn_calls (r : audio_read) (closed : option exn) (st : session) :
  exists calls,
    final (send_turn r closed st) = set_io (io st ++ calls) st
    /\ requests calls = [] /\ filter is_connect calls = [].
Proof.
  unfold send_turn, bind, get.
  destruct (stop_transcription st).
  - exists []. cbn [final ret]. rewrite app_nil_r. unfold set_io.
    now rewrite session_eta.
  - rewrite send_cycle_eq. destruct (transcribing st).
    + destruct r as [data|e]; [destruct closed |]; eexists;
        (split; [reflexivity | split; reflexivity]).
    + exists []. cbn [final ret]. rewrite app_nil_r. unfold set_io.
      now rewrite session_eta.
Qed.

(** A stretch of a connection in which both tasks stream, with a leftover
    sender or not: the buffer gains the texts in their order, and the rest
    of the session gains calls only, none of them a request or a
    connection. *)
Lemma gather_carries_on (sched tail : list occurrence) (st : session) :
  transcribing st = true ->
  stop_transcription st = false ->
  forallb carries_on sched = true ->
  exists calls,
    gather (sched ++ tail) true true st
    = gather tail true true
        (set_io (io st ++ calls)
           (set_user_message (user_message st ++ joined (map turn_text sched)) st))
    /\ requests calls = [] /\ filter is_connect calls = [].
Proof.
  revert st. induction sched as [|o rest IH]; intros st Hactive Hrunning Hs.
  - exists []. simpl. rewrite app_nil_r, append_empty_r.
    unfold set_io, set_user_message. cbn. now rewrite session_eta.
  - cbn [forallb] in Hs. apply andb_true_iff in Hs. destruct Hs as [Ho Hrest].
    cbn [app gather negb andb].
    destruct o as [k|r closed|inp resp|r closed|inp resp]; try discriminate Ho.
    + destruct r as [data|e]; [| discriminate Ho].
      destruct closed; [discriminate Ho |].
      unfold bind at 1. unfold send_turn. unfold bind at 1. unfold get at 1.
      rewrite Hrunning. unfold bind at 1.
      rewrite send_cycle_eq, Hactive. cbv zeta. unfold ret at 1.
      match goal with
      | |- context [gather (rest ++ tail) true true ?s] =>
          destruct (IH s Hactive Hrunning Hrest) as (calls & E & Hr & Hc)
      end.
      exists (StreamRead FRAMES_PER_BUFFER
              :: WsSend (json.dumps [("audio_data", base64.b64encode data)])
              :: calls)%list.
      rewrite E. split; [| split; cbn [requests filter is_connect]; assumption].
      f_equal. unfold set_io, set_user_message. cbn. now rewrite <- app_assoc.
    + unfold carries_on in Ho. rewrite orb_false_r in Ho. simpl in Ho.
      destruct (inbound_final_text inp) as [text|] eqn:Hf; [| discriminate Ho].
      destruct inp as [e|err|transcript]; try discriminate Hf. simpl in Hf.
      unfold bind at 1. unfold receive_next. unfold bind at 1.
      rewrite (receive_cycle_final _ _ _ _ Hf), Hactive.
      unfold bind at 1. unfold get at 1.
      cbn [stop_transcription set_user_message]. rewrite Hrunning.
      unfold ret at 1. cbn [negb].
      match goal with
      | |- context [gather (rest ++ tail) true true ?s] =>
          destruct (IH s Hactive Hrunning Hrest) as (calls & E & Hr & Hc)
      end.
      exists calls. rewrite E. split; [| split; assumption].
      f_equal. cbn [map turn_text joined fold_right inbound_final_text].
      rewrite Hf. cbn [text_of].
      unfold set_io, set_user_message. cbn. now rewrite append_assoc.
    + unfold bind at 1. unfold unretrieved.
      destruct (send_turn_calls r closed st) as (calls0 & E0 & Hr0 & Hc0).
      rewrite E0.
      destruct (IH (set_io (io st ++ calls0) st) Hactive Hrunning Hrest)
        as (calls & E & Hr & Hc).
      exists (calls0 ++ calls)%list. rewrite E. split; [| split].
      * f_equal. unfold set_io, set_user_message. cbn. now rewrite <- app_assoc.
      * now rewrite requests_app, Hr0, Hr.
      * now rewrite filter_app, Hc0, Hc.
Qed.

(** X9. An idle disconnection in the middle of an utterance loses nothing
    and hands nothing over. With the toggle active, while frames are sent
    and final-type events arrive in any order, the connection is closed
    for idleness under the receiver; the supervisor opens a new
    connection, on which both tasks stream again while the sender of the
    old connection, which [gather] did not cancel, may still take turns.
    The buffer then holds what it held followed by the texts received on
    the first connection and those received on the second, in their order;
    the log is as it was, no request has been made, and two connections
    have been opened. *)
Theorem buffer_survives_reconnection
  (auth : string) (before after : list occurrence)
  (e : exn) (resp : completion) (st : session)
  (Hactive : transcribing st = true)
  (Hrunning : stop_transcription st = false)
  (Hbefore : forallb carries_on before = true)
  (Hafter : forallb carries_on after = true)
  (Hclass : exn_cls e = ConnectionClosedError)
  (Hidle : str_contains IDLE (exn_str e) = true) :
  exists st',
    send_receive auth
      [mkAttempt None (before ++ [ReceiverTurn (RecvRaises e) resp]);
       mkAttempt None after] st
    = Returns Waiting st'
    /\ user_message st'
       = user_message st ++ joined (map turn_text before)
                         ++ joined (map turn_text after)
    /\ messages st' = messages st
    /\ requests (io st') = requests (io st)
    /\ filter is_connect (io st')
       = (filter is_connect (io st)
          ++ [WsConnect WEBSOCKET_URL auth 5 20; WsConnect WEBSOCKET_URL auth 5 20])%list.
Proof.
  pose (st1 := set_io (io st ++ [WsConnect WEBSOCKET_URL auth 5 20]) st).
  destruct (gather_carries_on before [ReceiverTurn (RecvRaises e) resp] st1
              Hactive Hrunning Hbefore) as (calls1 & E1 & R1 & K1).
  set (st2 := set_io (io st1 ++ calls1)
                (set_user_message (user_message st1 ++ joined (map turn_text before))
                   st1)) in E1.
  assert (C1 : connection auth
                 (mkAttempt None (before ++ [ReceiverTurn (RecvRaises e) resp])) st
               = Raises e st2).
  { unfold connection, bind at 1, call, modify. fold st1.
    unfold connected. cbn [refused schedule].
    unfold bind at 1. unfold get at 1.
    change (transcribing st1) with (transcribing st). rewrite Hactive.
    cbn [negb]. unfold bind at 1. unfold ret at 1.
    unfold bind at 1. unfold get at 1.
    change (stop_transcription st1) with (stop_transcription st). rewrite Hrunning.
    cbn [negb]. rewrite E1. reflexivity. }
  rewrite (send_receive_raised auth _ _ e st st2 Hrunning C1).
  unfold handler at 1. rewrite Hclass, Hidle. cbn [negb]. unfold ret at 1.
  pose (st3 := set_io (io st2 ++ [WsConnect WEBSOCKET_URL auth 5 20]) st2).
  destruct (gather_carries_on after [] st3 Hactive Hrunning Hafter)
    as (calls2 & E2 & R2 & K2).
  rewrite app_nil_r in E2.
  eexists. split.
  - cbn [send_receive]. unfold bind at 1. unfold get at 1.
    change (stop_transcription st2) with (stop_transcription st). rewrite Hrunning.
    unfold bind at 1. unfold try_except. unfold bind at 1.
    unfold connection, bind at 1, call, modify. fold st3.
    unfold connected. cbn [refused schedule].
    unfold bind at 1. unfold get at 1.
    change (transcribing st3) with (transcribing st). rewrite Hactive.
    cbn [negb]. unfold bind at 1. unfold ret at 1.
    unfold bind at 1. unfold get at 1.
    change (stop_transcription st3) with (stop_transcription st). rewrite Hrunning.
    cbn [negb]. rewrite E2. reflexivity.
  - subst st3 st2 st1.
    cbn [user_message messages io set_io set_user_message].
    rewrite !requests_app, !filter_app, R1, R2, K1, K2.
    cbn [requests filter is_connect]. rewrite !app_nil_r, append_assoc.
    repeat split. now rewrite <- app_assoc.
Qed.

Lemma buffer_survives_reconnection_witness :
  exists st',
    send_receive ""
      [mkAttempt None
         ([SenderTurn (Frame (list_byte_of_string "Ma")) None;
           ReceiverTurn (Decoded (final_event "Hello ")) answer]
          ++ [ReceiverTurn (RecvRaises idle_closed) answer]);
       mkAttempt None
         [LeftoverSenderTurn (Frame (list_byte_of_string "n")) (Some idle_closed);
          SenderTurn (Frame (list_byte_of_string "Ma")) None;
          ReceiverTurn (Decoded (final_event "there")) answer]] active0
    = Returns Waiting st'
    /\ user_message st' = "Hello there"
    /\ messages st' = messages active0.
Proof.
  destruct (buffer_survives_reconnection ""
              [SenderTurn (Frame (list_byte_of_string "Ma")) None;
               ReceiverTurn (Decoded (final_event "Hello ")) answer]
              [LeftoverSenderTurn (Frame (list_byte_of_string "n")) (Some idle_closed);
               SenderTurn (Frame (list_byte_of_string "Ma")) None;
               ReceiverTurn (Decoded (final_event "there")) answer]
              idle_closed answer active0
              eq_refl eq_refl eq_refl eq_refl eq_refl eq_refl)
    as (st' & E & Hu & Hm & _).
  exists st'. split; [exact E |]. split; [exact Hu | exact Hm].
Defined.

(** ** While the toggle is paused *)





(** ** The payload, read back *)

Lemma land_63 n : Z.land n 63 = n mod 64.
Proof. change 63 with (Z.ones 6). now rewrite Z.land_ones by lia. Qed.

Lemma value_digit n : b64_value (base64.digit n) = Some (Z.land n 63).
Proof.
  unfold base64.digit. rewrite land_63.
  assert (B : 0 <= n mod 64 < 64) by (apply Z.mod_pos_bound; lia).
  rewrite <- (Z2Nat.id (n mod 64)) at 2 by lia.
  assert (K : (Z.to_nat (n mod 64) < 64)%nat) by lia.
  generalize dependent (Z.to_nat (n mod 64)). intros k K.
  do 64 (destruct k as [|k]; [reflexivity |]). lia.
Qed.

Lemma digit_not_pad n : Ascii.eqb (base64.digit n) base64.PAD = false.
Proof.
  destruct (Ascii.eqb_spec (base64.digit n) base64.PAD) as [E|]; [|reflexivity].
  pose proof (value_digit n) as V. rewrite E in V. discriminate V.
Qed.

Lemma octet_bounds b : 0 <= base64.octet b < 256.
Proof. unfold base64.octet. pose proof (Byte.to_N_bounded b). lia. Qed.

Lemma to_byte_octet b : to_byte (base64.octet b) = b.
Proof. unfold to_byte, base64.octet. now rewrite N2Z.id, Byte.of_to_N. Qed.

Lemma lor_shifted hi lo k :
  0 <= k -> 0 <= lo < 2 ^ k -> Z.lor (Z.shiftl hi k) lo = hi * 2 ^ k + lo.
Proof.
  intros Hk Hlo. rewrite <- Z.shiftl_mul_pow2 by lia.
  rewrite <- Z.add_lor_land.
  assert (E : Z.land (Z.shiftl hi k) lo = 0).
  { apply Z.bits_inj'. intros i Hi. rewrite Z.land_spec, Z.bits_0.
    destruct (Z.lt_ge_cases i k).
    - rewrite Z.shiftl_spec_low by lia. reflexivity.
    - rewrite <- (Z.mod_small lo (2 ^ k)) by lia.
      rewrite Z.mod_pow2_bits_high by lia. apply andb_false_r. }
  rewrite E. lia.
Qed.

Ltac to_arith :=
  rewrite ?land_63, ?Z.shiftr_div_pow2, ?Z.shiftl_mul_pow2 by lia;
  change (2 ^ 18) with 262144; change (2 ^ 16) with 65536;
  change (2 ^ 12) with 4096; change (2 ^ 8) with 256; change (2 ^ 6) with 64.

Lemma group3 a b c :
  0 <= a < 256 -> 0 <= b < 256 -> 0 <= c < 256 ->
  let n := Z.lor (Z.lor (Z.shiftl a 16) (Z.shiftl b 8)) c in
  let m := ((Z.land (Z.shiftr n 18) 63 * 64 + Z.land (Z.shiftr n 12) 63) * 64
            + Z.land (Z.shiftr n 6) 63) * 64 + Z.land n 63 in
  m / 65536 = a /\ m / 256 mod 256 = b /\ m mod 256 = c.
Proof.
  intros Ha Hb Hc n m.
  assert (En : n = a * 65536 + b * 256 + c).
  { subst n.
    assert (Eb : Z.shiftl b 8 = b * 256)
      by (rewrite Z.shiftl_mul_pow2 by lia; reflexivity).
    rewrite (lor_shifted a (Z.shiftl b 8) 16);
      [| lia | rewrite Eb; change (2 ^ 16) with 65536; lia].
    rewrite Eb. change (2 ^ 16) with 65536.
    replace (a * 65536 + b * 256) with (Z.shiftl (a * 256 + b) 8)
      by (rewrite Z.shiftl_mul_pow2 by lia; change (2 ^ 8) with 256; lia).
    rewrite lor_shifted; [| lia | change (2 ^ 8) with 256; lia].
    rewrite ?Z.shiftl_mul_pow2 by lia. change (2 ^ 8) with 256. lia. }
  assert (Em : m = n).
  { assert (Bn : 0 <= n < 16777216) by lia.
    subst m. to_arith. clearbody n. clear En. Z.div_mod_to_equations. lia. }
  rewrite Em, En. clear n m En Em. repeat split; Z.div_mod_to_equations; lia.
Qed.

Lemma group1 a :
  0 <= a < 256 ->
  let n := Z.shiftl a 16 in
  (Z.land (Z.shiftr n 18) 63 * 64 + Z.land (Z.shiftr n 12) 63) / 16 = a.
Proof.
  intros Ha n.
  assert (En : n = a * 65536)
    by (subst n; rewrite Z.shiftl_mul_pow2 by lia; reflexivity).
  to_arith. rewrite En. clear n En. Z.div_mod_to_equations. lia.
Qed.

Lemma group2 a b :
  0 <= a < 256 -> 0 <= b < 256 ->
  let n := Z.lor (Z.shiftl a 16) (Z.shiftl b 8) in
  let m := (Z.land (Z.shiftr n 18) 63 * 64 + Z.land (Z.shiftr n 12) 63) * 64
           + Z.land (Z.shiftr n 6) 63 in
  m / 1024 = a /\ m / 4 mod 256 = b.
Proof.
  intros Ha Hb n m.
  assert (En : n = a * 65536 + b * 256).
  { subst n.
    assert (Eb : Z.shiftl b 8 = b * 256)
      by (rewrite Z.shiftl_mul_pow2 by lia; reflexivity).
    rewrite lor_shifted; [| lia | rewrite Eb; change (2 ^ 16) with 65536; lia].
    rewrite Eb. reflexivity. }
  subst m. to_arith. rewrite En. clear n En.
  split; Z.div_mod_to_equations; lia.
Qed.


Lemma b64decode_b64encode (data : list byte) :
  b64decode (base64.b64encode data) = Some data.
Proof.
  enough (H : b64decode (base64.b64encode data) = Some data
              /\ (forall a, b64decode (base64.b64encode (a :: data)) = Some (a :: data))
              /\ (forall a b, b64decode (base64.b64encode (a :: b :: data))
                              = Some (a :: b :: data)))
    by apply H.
  induction data as [|c rest (IH0 & IH1 & IH2)].
  - split; [reflexivity |]. split.
    + intros a. cbn [base64.b64encode b64decode].
      rewrite !value_digit. cbv zeta.
      change (Ascii.eqb base64.PAD base64.PAD) with true. cbv iota.
      pose proof (group1 (base64.octet a) (octet_bounds a)) as E. cbv zeta in E.
      rewrite E, to_byte_octet. reflexivity.
    + intros a b. cbn [base64.b64encode b64decode].
      rewrite !value_digit, digit_not_pad. cbv zeta.
      change (Ascii.eqb base64.PAD base64.PAD) with true. cbv iota.
      pose proof (group2 (base64.octet a) (base64.octet b)
                    (octet_bounds a) (octet_bounds b)) as E.
      cbv zeta in E. destruct E as [Ea Eb].
      rewrite Ea, Eb, !to_byte_octet. reflexivity.
  - split; [exact (IH1 c) |]. split; [intros a; exact (IH2 a c) |].
    intros a b. cbn [base64.b64encode b64decode].
    rewrite !value_digit, !digit_not_pad, IH0. cbv zeta.
    pose proof (group3 (base64.octet a) (base64.octet b) (base64.octet c)
                  (octet_bounds a) (octet_bounds b) (octet_bounds c)) as E.
    cbv zeta in E. destruct E as (Ea & Eb & Ec).
    cbn [option_map]. rewrite Ea, Eb, Ec, !to_byte_octet. reflexivity.
Qed.


Lemma length_append (a b : string) :
  String.length (a ++ b) = (String.length a + String.length b)%nat.
Proof. induction a as [|c a IH]; simpl; [reflexivity | now rewrite IH]. Qed.

Lemma append_cancel_l (p x y : string) : p ++ x = p ++ y -> x = y.
Proof.
  induction p as [|c p IH]; simpl; intros H; [exact H |].
  injection H as H. now apply IH.
Qed.

Lemma append_cancel_r (x y s : string) : x ++ s = y ++ s -> x = y.
Proof.
  revert y. induction x as [|c x IH]; intros y H.
  - destruct y as [|d y]; [reflexivity |].
    exfalso. apply (f_equal String.length) in H.
    simpl in H. rewrite length_append in H. lia.
  - destruct y as [|d y].
    + exfalso. apply (f_equal String.length) in H.
      simpl in H. rewrite length_append in H. lia.
    + simpl in H. injection H as -> H. f_equal. now apply IH.
Qed.

Lemma b64encode_length (data : list byte) :
  String.length (base64.b64encode data) = (4 * ((List.length data + 2) / 3))%nat.
Proof.
  enough (H : String.length (base64.b64encode data)
              = (4 * ((List.length data + 2) / 3))%nat
              /\ (forall a, String.length (base64.b64encode (a :: data))
                            = (4 * ((List.length (a :: data) + 2) / 3))%nat)
              /\ (forall a b, String.length (base64.b64encode (a :: b :: data))
                              = (4 * ((List.length (a :: b :: data) + 2) / 3))%nat))
    by apply H.
  induction data as [|c rest (IH0 & IH1 & IH2)].
  - repeat split; intros; reflexivity.
  - split; [exact (IH1 c) |]. split; [intros a; exact (IH2 a c) |].
    intros a b. cbn [base64.b64encode String.length List.length].
    rewrite IH0.
    replace (S (S (S (List.length rest))) + 2)%nat
      with (1 * 3 + (List.length rest + 2))%nat by lia.
    rewrite Nat.div_add_l by lia. lia.
Qed.

(** X11. The frame can be read back from the message: the text under
    audio_data decodes to the bytes that were read, so that two frames
    that differ never give the same message. *)
Theorem frame_recovered_from_payload (data : list byte) :
  (exists text,
      json.dumps [("audio_data", base64.b64encode data)]
      = "{" ++ DQUOTE ++ "audio_data" ++ DQUOTE ++ ": " ++ DQUOTE ++ text ++ DQUOTE ++ "}"
      /\ b64decode text = Some data)
  /\ (forall other,
        json.dumps [("audio_data", base64.b64encode other)]
        = json.dumps [("audio_data", base64.b64encode data)] ->
        other = data).
Proof.
  split.
  - exists (base64.b64encode data). split.
    + apply dumps_audio_data.
    + apply b64decode_b64encode.
  - intros other H. rewrite !dumps_audio_data in H.
    do 6 apply append_cancel_l in H.
    apply append_cancel_r in H.
    assert (D : b64decode (base64.b64encode other) = b64decode (base64.b64encode data))
      by now rewrite H.
    rewrite !b64decode_b64encode in D. now injection D.
Qed.

(** X12. The size of the message depends on the size of the frame only: n
    bytes give 4 characters of base64 for every 3 bytes or part of them,
    and the message has 18 characters more. *)
Theorem payload_length (data : list byte) :
  String.length (base64.b64encode data) = (4 * ((List.length data + 2) / 3))%nat
  /\ String.length (json.dumps [("audio_data", base64.b64encode data)])
     = (18 + 4 * ((List.length data + 2) / 3))%nat.
Proof.
  assert (L : String.length (base64.b64encode data)
              = (4 * ((List.length data + 2) / 3))%nat).
  { enough (H : String.length (base64.b64encode data)
                = (4 * ((List.length data + 2) / 3))%nat
                /\ (forall a, String.length (base64.b64encode (a :: data))
                              = (4 * ((List.length (a :: data) + 2) / 3))%nat)
                /\ (forall a b, String.length (base64.b64encode (a :: b :: data))
                                = (4 * ((List.length (a :: b :: data) + 2) / 3))%nat))
      by apply H.
    induction data as [|c rest (IH0 & IH1 & IH2)].
    - repeat split; intros; reflexivity.
    - split; [exact (IH1 c) |]. split; [intros a; exact (IH2 a c) |].
      intros a b. cbn [base64.b64encode String.length List.length].
      rewrite IH0.
      replace (S (S (S (List.length rest))) + 2)%nat
        with (1 * 3 + (List.length rest + 2))%nat by lia.
      rewrite Nat.div_add_l by lia. lia. }
  split; [exact L |].
  rewrite dumps_audio_data, !length_append, L.
  change (String.length DQUOTE) with 1%nat. cbn [String.length]. lia.
Qed.


(** ** The sender's cycle: the claim *)

(** C8, as the code has it. A cycle of the sender with the toggle active
    calls [stream.read] once, for the 3200 samples of
    [FRAMES_PER_BUFFER]. When the
    read returns a frame, the cycle passes one message to
    [websocket.send]: the JSON object whose only key, audio_data, maps to
    base64 text that decodes to exactly the bytes read; the cycle returns
    when the connection takes the message and raises the exception of
    [send] otherwise. When the read raises, nothing is sent and the
    exception leaves the cycle. A cycle with the toggle paused calls
    nothing and leaves the session as it is. *)
Theorem send_cycle_by_toggle (st : session) (r : audio_read) (closed : option exn) :
  (transcribing st = true ->
   match r with
   | Frame data =>
       exists text,
         io (final (send_cycle r closed st))
         = (io st ++ [StreamRead 3200;
                      WsSend ("{" ++ DQUOTE ++ "audio_data" ++ DQUOTE ++ ": "
                                  ++ DQUOTE ++ text ++ DQUOTE ++ "}")])%list
         /\ b64decode text = Some data
         /\ String.length text = (4 * ((List.length data + 2) / 3))%nat
         /\ (closed = None -> exists st', send_cycle r closed st = Returns tt st')
         /\ (forall e, closed = Some e ->
               exists st', send_cycle r closed st = Raises e st')
   | ReadRaises e =>
       send_cycle r closed st
       = Raises e (set_io (io st ++ [StreamRead 3200]) st)
   end)
  /\ (transcribing st = false -> send_cycle r closed st = Returns tt st).
Proof.
  split; intros H; rewrite send_cycle_eq, H; [| reflexivity].
  destruct r as [data|e]; [| reflexivity].
  exists (base64.b64encode data). cbv zeta.
  split; [| split; [| split; [| split]]].
  - rewrite dumps_audio_data. now destruct closed.
  - apply b64decode_b64encode.
  - apply b64encode_length.
  - intros ->. eauto.
  - intros e ->. eauto.
Qed.

(** C8 as stated fails for a cycle in which the read fails: the toggle is
    active, the stream is read once, no frame comes back, and nothing is
    sent. *)
Lemma active_cycle_without_frame :
  transcribing active0 = true
  /\ send_cycle (ReadRaises stream_closed) None active0
     = Raises stream_closed (set_io [StreamRead FRAMES_PER_BUFFER] active0)
  /\ audio_calls (io (final (send_cycle (ReadRaises stream_closed) None active0)))
     = [StreamRead FRAMES_PER_BUFFER].
Proof. repeat split. Qed.

Lemma send_cycle_by_toggle_frame :
  exists text,
    io (final (send_cycle (Frame (list_byte_of_string "Ma")) None active0))
    = [StreamRead FRAMES_PER_BUFFER;
       WsSend ("{" ++ DQUOTE ++ "audio_data" ++ DQUOTE ++ ": "
                   ++ DQUOTE ++ text ++ DQUOTE ++ "}")]
    /\ b64decode text = Some (list_byte_of_string "Ma").
Proof.
  destruct (proj1 (send_cycle_by_toggle active0 (Frame (list_byte_of_string "Ma")) None)
              eq_refl) as (text & Hio & Hdec & _).
  exists text. split; [exact Hio | exact Hdec].
Defined.

(** ** Order within a connection *)

(** X13. While the toggle is active and no key is pressed, however the turns
    of the two tasks interleave, frames are sent in the order they are
    read, one message for each, and the texts of the final-type events
    are added to the buffer in the order they arrive; nothing is handed
    over, and both tasks go on. *)
Theorem streaming_keeps_order (sched : list occurrence) (st : session)
  (Hactive : transcribing st = true)
  (Hrunning : stop_transcription st = false)
  (Hstreams : forallb streams sched = true) :
  gather sched true true st
  = Returns Waiting
      (set_io (io st ++ flat_map turn_calls sched)
         (set_user_message (user_message st ++ joined (map turn_text sched)) st)).
Proof.
  revert st Hactive Hrunning.
  induction sched as [|o rest IH]; intros st Hactive Hrunning.
  - simpl. rewrite app_nil_r, append_empty_r.
    unfold set_io, set_user_message. cbn. now rewrite session_eta.
  - cbn [forallb] in Hstreams. apply andb_true_iff in Hstreams.
    destruct Hstreams as [Ho Hrest]. specialize (IH Hrest).
    cbn [gather negb andb].
    destruct o as [k|r closed|inp resp|r closed|inp resp]; try discriminate Ho.
    + destruct r as [data|e]; [| discriminate Ho].
      destruct closed; [discriminate Ho |].
      unfold bind at 1. unfold send_turn. unfold bind at 1. unfold get at 1.
      rewrite Hrunning. unfold bind at 1.
      rewrite send_cycle_eq, Hactive. cbv zeta. unfold ret at 1.
      rewrite IH by assumption.
      cbn [flat_map turn_calls map turn_text joined fold_right String.append].
      unfold set_io, set_user_message.
      cbn [io user_message model user_name interviewer_name assistant_message
           messages transcribing stop_transcription].
      now rewrite <- app_assoc.
    + simpl in Ho.
      destruct (inbound_final_text inp) as [text|] eqn:Hf; [| discriminate Ho].
      destruct inp as [e|err|transcript]; try discriminate Hf. simpl in Hf.
      unfold bind at 1. unfold receive_next. unfold bind at 1.
      rewrite (receive_cycle_final _ _ _ _ Hf), Hactive.
      unfold bind at 1. unfold get at 1.
      cbn [stop_transcription set_user_message]. rewrite Hrunning.
      unfold ret at 1. cbn [negb].
      rewrite IH by assumption.
      cbn [flat_map turn_calls map turn_text joined fold_right inbound_final_text].
      rewrite Hf. cbn [text_of app].
      unfold set_io, set_user_message.
      cbn [io user_message model user_name interviewer_name assistant_message
           messages transcribing stop_transcription].
      now rewrite append_assoc.
Qed.

Lemma streaming_keeps_order_witness :
  gather [SenderTurn (Frame (list_byte_of_string "Ma")) None;
          ReceiverTurn (Decoded (final_event "Hello ")) answer;
          SenderTurn (Frame (list_byte_of_string "n")) None;
          ReceiverTurn (Decoded (final_event "there")) answer] true true active0
  = Returns Waiting
      (set_io [StreamRead FRAMES_PER_BUFFER;
               WsSend (json.dumps [("audio_data", "TWE=")]);
               StreamRead FRAMES_PER_BUFFER;
               WsSend (json.dumps [("audio_data", "bg==")])]
         (set_user_message "Hello there" active0)).
Proof.
  exact (streaming_keeps_order
           [SenderTurn (Frame (list_byte_of_string "Ma")) None;
            ReceiverTurn (Decoded (final_event "Hello ")) answer;
            SenderTurn (Frame (list_byte_of_string "n")) None;
            ReceiverTurn (Decoded (final_event "there")) answer]
           active0 eq_refl eq_refl eq_refl).
Defined.

(** ** A frame that cannot be read *)

(** X14. A failure of the audio stream is not absorbed. With the toggle active
    and no stop asked for, when the first turn of a connection is a turn
    of the sender in which [stream.read] raises an [Exception], nothing is
    sent, the exception leaves the sender and [gather], and the
    supervisor prints it after "Unexpected error: " and leaves its loop:
    the run ends normally, with no other connection attempted. *)
Theorem audio_read_failure_ends_run
  (auth : string) (e : exn) (closed : option exn)
  (rest : list occurrence) (more : list attempt) (st : session)
  (Hactive : transcribing st = true)
  (Hrunning : stop_transcription st = false)
  (Hclass : exn_cls e <> ConnectionClosedError)
  (Hexception : is_Exception (exn_cls e) = true) :
  run auth (mkAttempt None (SenderTurn (ReadRaises e) closed :: rest) :: more) st
  = (Normal,
     logged e (set_io (io st ++ [WsConnect WEBSOCKET_URL auth 5 20;
                                 StreamRead FRAMES_PER_BUFFER]) st)).
Proof.
  pose (st1 := set_io (io st ++ [WsConnect WEBSOCKET_URL auth 5 20;
                                 StreamRead FRAMES_PER_BUFFER]) st).
  assert (C : connection auth
                (mkAttempt None (SenderTurn (ReadRaises e) closed :: rest)) st
              = Raises e st1).
  { unfold connection, bind at 1, call, modify.
    unfold connected. cbn [refused schedule].
    unfold bind at 1. unfold get at 1.
    cbn [transcribing set_io]. rewrite Hactive. cbn [negb].
    unfold bind at 1. unfold ret at 1.
    unfold bind at 1. unfold get at 1.
    cbn [stop_transcription set_io]. rewrite Hrunning.
    cbn [gather negb andb].
    unfold bind at 1. unfold send_turn. unfold bind at 1. unfold get at 1.
    cbn [stop_transcription set_io]. rewrite Hrunning.
    unfold bind at 1. rewrite send_cycle_eq.
    cbn [transcribing set_io]. rewrite Hactive.
    subst st1. unfold set_io. cbn. now rewrite <- app_assoc. }
  unfold run. rewrite (send_receive_raised auth _ more e st st1 Hrunning C).
  unfold handler.
  destruct (exn_cls e); try discriminate Hexception; try congruence; reflexivity.
Qed.

Lemma audio_read_failure_ends_run_witness :
  run "" [mkAttempt None [SenderTurn (ReadRaises (mkExn OSError "[Errno -9988] Stream closed"))
                                     None];
          closing idle_closed] active0
  = (Normal,
     logged (mkExn OSError "[Errno -9988] Stream closed")
       (set_io [WsConnect WEBSOCKET_URL "" 5 20; StreamRead FRAMES_PER_BUFFER] active0)).
Proof.
  apply (audio_read_failure_ends_run "" (mkExn OSError "[Errno -9988] Stream closed")
           None [] [closing idle_closed] active0 eq_refl eq_refl);
    [discriminate | reflexivity].
Defined.
